(** * basketry/typescript-docs: closure resolver and document renderer

    A shallow embedding of [src/interface-info.ts] (class [InterfaceInfo]) and
    of [src/readme-factory.ts] (class [Builder], functions [sortParameters]
    and [anchor]), followed by the properties of the specification that were
    checked against them.

    Conventions of the embedding.
    - Strings are [string].  What the code calls outside the repository (the
      look-ups by name of basketry, [localeCompare], [toLocaleLowerCase],
      the name factories, the package [case]) is a parameter: the
      comparison of names of the look-ups is [sameName], the rest are the
      fields of [Host.t].
    - A JavaScript [Map] is an association list in insertion order.
    - A generator is the list of the values it yields; [traverse] also threads
      the six private maps of the instance it mutates.
    - Recursion that the source does not bound structurally takes a [fuel]
      argument and answers [None] when the fuel is used up. *)

From Stdlib Require Import String Ascii List ZArith Bool Arith Lia.
From Stdlib Require Import Sorted Permutation OrderedTypeEx.
Import ListNotations.

Local Open Scope string_scope.
Local Open Scope list_scope.

(** ** The service description (basketry's intermediate representation) *)

(** A JavaScript number occurs in this program only inside template
    literals, so it is kept as the text that [ToString] gives it. *)
Inductive Number := num (text : string).

Definition numberToString (n : Number) : string :=
  match n with num text => text end.

(** [ValidationRule] is a union discriminated by its [id]; the constructors
    are named after the ids that [buildRules] switches on.  Every other id
    (['required'], ['string-enum'], ...) is kept by [other_rule]. *)
Inductive ValidationRule :=
| array_max_items (max : Number)
| array_min_items (min : Number)
| array_unique_items
| number_gt (value : Number)
| number_gte (value : Number)
| number_lt (value : Number)
| number_lte (value : Number)
| number_multiple_of (value : Number)
| string_max_length (length : Number)
| string_min_length (length : Number)
| string_pattern (pattern : string)
| other_rule (id : string).

(** [description?: Scalar<string> | Scalar<string>[]] *)
Inductive Description :=
| single (line : string)
| paragraphs (lines : list string).

Module TypedValue.
Record t := mk { typeName : string; isPrimitive : bool; isArray : bool }.
End TypedValue.

Module ParameterDecl.
Record t := mk {
  name : string;
  description : option Description;
  typed : TypedValue.t;
  rules : list ValidationRule }.
End ParameterDecl.

Module PropertyDecl.
Record t := mk {
  name : string;
  description : option Description;
  typed : TypedValue.t;
  rules : list ValidationRule }.
End PropertyDecl.

Module MapProperties.
Record t := mk { key : TypedValue.t; value : TypedValue.t }.
End MapProperties.

Module TypeDecl.
Record t := mk {
  name : string;
  description : option Description;
  properties : list PropertyDecl.t;
  mapProperties : option MapProperties.t }.
End TypeDecl.

Module Union.
Record t := mk { name : string; members : list TypedValue.t }.
End Union.

(** The value of a metadata entry is untyped in the source; the two shapes
    that [buildEnumDocs] reads are a string and a string-keyed record. *)
Inductive MetaValue :=
| meta_string (s : string)
| meta_record (entries : list (string * string)).

Module Enum.
Record t := mk {
  name : string;
  values : list string;
  meta : option (list (string * MetaValue)) }.
End Enum.

Module Method.
Record t := mk {
  name : string;
  parameters : list ParameterDecl.t;
  returnType : option TypedValue.t;
  description : option Description }.
End Method.

Module Interface.
Record t := mk {
  name : string;
  methods : list Method.t;
  description : option Description }.
End Interface.

Module Service.
Record t := mk {
  interfaces : list Interface.t;
  types : list TypeDecl.t;
  enums : list Enum.t;
  unions : list Union.t }.
End Service.

(** basketry's look-up helpers.  They answer with the entity declared last
    among those whose name is the requested one.  The library compares the
    names in its own way, which does not tell the case of letters apart; the
    comparison is the parameter [sameName], whose first argument is the name
    of a declared entity and whose second is the name looked up. *)
Section Lookup.
Variable sameName : string -> string -> bool.

Definition getTypeByName (service : Service.t) (typeName : string)
  : option TypeDecl.t :=
  find (fun t => sameName (TypeDecl.name t) typeName)
    (rev (Service.types service)).

Definition getEnumByName (service : Service.t) (enumName : string)
  : option Enum.t :=
  find (fun e => sameName (Enum.name e) enumName)
    (rev (Service.enums service)).

Definition getUnionByName (service : Service.t) (unionName : string)
  : option Union.t :=
  find (fun u => sameName (Union.name u) unionName)
    (rev (Service.unions service)).
End Lookup.

(** The names that the entities of a service refer to: the type names of
    the properties of its Types and of the members of its Unions. *)
Definition references (service : Service.t) : list string :=
  flat_map
    (fun type =>
       map (fun prop => TypedValue.typeName (PropertyDecl.typed prop))
         (TypeDecl.properties type))
    (Service.types service)
  ++ flat_map (fun union => map TypedValue.typeName (Union.members union))
       (Service.unions service).

(** basketry's [isRequired]: some rule has the id ['required']. *)
Definition isRequired (rules : list ValidationRule) : bool :=
  existsb (fun r => match r with
                    | other_rule id => id =? "required"
                    | _ => false
                    end) rules.

(** ** JavaScript containers *)

Module JsMap.
Section Ops.
Context {V : Type}.

Definition t := list (string * V).

Definition empty : t := [].

Definition has (m : t) (k : string) : bool :=
  existsb (fun kv => fst kv =? k) m.

Definition get (m : t) (k : string) : option V :=
  option_map snd (find (fun kv => fst kv =? k) m).

(** [Map.prototype.set]: a present key keeps its place, a new one goes
    last. *)
Fixpoint set (m : t) (k : string) (v : V) : t :=
  match m with
  | [] => [(k, v)]
  | (k', v') :: m' =>
      if k' =? k then (k, v) :: m' else (k', v') :: set m' k v
  end.

Definition keys (m : t) : list string := map fst m.
Definition values (m : t) : list V := map snd m.
End Ops.
Arguments t : clear implicits.
End JsMap.

(** [new Set(array)] followed by [Array.from]: the first occurrence of each
    string, in order. *)
Fixpoint Set_from (l : list string) : list string :=
  match l with
  | [] => []
  | x :: r => x :: filter (fun y => negb (y =? x)) (Set_from r)
  end.

(** [Array.prototype.sort] with a comparator: a stable sort; [insert] puts
    [x] before the first element that does not precede it. *)
Section Sort.
Context {A : Type} (cmp : A -> A -> Z).

Fixpoint insert (x : A) (l : list A) : list A :=
  match l with
  | [] => [x]
  | y :: l' => if (cmp x y <=? 0)%Z then x :: y :: l' else y :: insert x l'
  end.

Definition sort (l : list A) : list A := fold_right insert [] l.
End Sort.

(** [Array.prototype.join] *)
Definition join (sep : string) (l : list string) : string := String.concat sep l.

(** ** [InterfaceInfo]: the closure resolver (src/interface-info.ts) *)

Module InterfaceInfo.

(** The six private maps of an instance. *)
Record t := mk {
  _inputEnums : JsMap.t Enum.t;
  _outputEnums : JsMap.t Enum.t;
  _inputTypes : JsMap.t TypeDecl.t;
  _outputTypes : JsMap.t TypeDecl.t;
  _inputUnions : JsMap.t Union.t;
  _outputUnions : JsMap.t Union.t }.

(** The state of an instance when its field initialisers have run. *)
Definition fresh : t :=
  mk JsMap.empty JsMap.empty JsMap.empty JsMap.empty JsMap.empty JsMap.empty.

Inductive Mode := input | output.

(** The maps that [traverse] reads and writes in a given [mode]. *)
Definition typesOf (mode : Mode) (this : t) : JsMap.t TypeDecl.t :=
  match mode with input => _inputTypes this | output => _outputTypes this end.

Definition unionsOf (mode : Mode) (this : t) : JsMap.t Union.t :=
  match mode with input => _inputUnions this | output => _outputUnions this end.

Definition enumsOf (mode : Mode) (this : t) : JsMap.t Enum.t :=
  match mode with input => _inputEnums this | output => _outputEnums this end.

Definition setType (mode : Mode) (k : string) (v : TypeDecl.t) (this : t) : t :=
  match mode with
  | input =>
      mk (_inputEnums this) (_outputEnums this)
         (JsMap.set (_inputTypes this) k v) (_outputTypes this)
         (_inputUnions this) (_outputUnions this)
  | output =>
      mk (_inputEnums this) (_outputEnums this)
         (_inputTypes this) (JsMap.set (_outputTypes this) k v)
         (_inputUnions this) (_outputUnions this)
  end.

Definition setUnion (mode : Mode) (k : string) (v : Union.t) (this : t) : t :=
  match mode with
  | input =>
      mk (_inputEnums this) (_outputEnums this)
         (_inputTypes this) (_outputTypes this)
         (JsMap.set (_inputUnions this) k v) (_outputUnions this)
  | output =>
      mk (_inputEnums this) (_outputEnums this)
         (_inputTypes this) (_outputTypes this)
         (_inputUnions this) (JsMap.set (_outputUnions this) k v)
  end.

Definition setEnum (mode : Mode) (k : string) (v : Enum.t) (this : t) : t :=
  match mode with
  | input =>
      mk (JsMap.set (_inputEnums this) k v) (_outputEnums this)
         (_inputTypes this) (_outputTypes this)
         (_inputUnions this) (_outputUnions this)
  | output =>
      mk (_inputEnums this) (JsMap.set (_outputEnums this) k v)
         (_inputTypes this) (_outputTypes this)
         (_inputUnions this) (_outputUnions this)
  end.

(** The six guards that open [traverse]. *)
Definition visited (mode : Mode) (this : t) (typeName : string) : bool :=
  JsMap.has (typesOf mode this) typeName
  || JsMap.has (unionsOf mode this) typeName
  || JsMap.has (enumsOf mode this) typeName.

(** A generator run to its end: the values yielded and the instance it
    leaves; [None] when the fuel is used up before the end. *)
Definition Gen := option (list TypeDecl.t * t).

(** [for (const x of xs) { yield* body(x) }] *)
Fixpoint forEach {A : Type} (body : A -> t -> Gen) (xs : list A) (this : t)
  : Gen :=
  match xs with
  | [] => Some ([], this)
  | x :: xs' =>
      match body x this with
      | None => None
      | Some (ys, this1) =>
          match forEach body xs' this1 with
          | None => None
          | Some (zs, this2) => Some (ys ++ zs, this2)
          end
      end
  end.

Section Resolver.
Variable sameName : string -> string -> bool.

Fixpoint traverse (fuel : nat) (service : Service.t)
         (typeName : string) (mode : Mode) (this : t) : Gen :=
  match fuel with
  | O => None
  | S fuel' =>
      if visited mode this typeName then Some ([], this)
      else
        let type := getTypeByName sameName service typeName in
        let e := getEnumByName sameName service typeName in
        let union := getUnionByName sameName service typeName in
        match type, union, e with
        | Some type, _, _ =>
            match
              forEach
                (fun prop this' =>
                   if negb (TypedValue.isPrimitive (PropertyDecl.typed prop))
                   then traverse fuel' service
                          (TypedValue.typeName (PropertyDecl.typed prop))
                          mode this'
                   else Some ([], this'))
                (TypeDecl.properties type)
                (setType mode typeName type this)
            with
            | None => None
            | Some (ys, this') => Some (type :: ys, this')
            end
        | None, Some union, _ =>
            forEach
              (fun member this' =>
                 traverse fuel' service (TypedValue.typeName member) mode this')
              (Union.members union)
              (setUnion mode typeName union this)
        | None, None, Some e => Some ([], setEnum mode typeName e this)
        | None, None, None => Some ([], this)
        end
  end.

(** The body of the loop of [init] for one method; the yielded values are
    dropped, as the empty loop bodies of the source do. *)
Definition initMethod (fuel : nat) (service : Service.t) (method : Method.t)
           (this : t) : option t :=
  match
    forEach
      (fun param this' =>
         traverse fuel service
           (TypedValue.typeName (ParameterDecl.typed param)) input this')
      (Method.parameters method) this
  with
  | None => None
  | Some (_, this1) =>
      match Method.returnType method with
      | Some returnType =>
          if negb (TypedValue.isPrimitive returnType)
          then option_map snd
                 (traverse fuel service (TypedValue.typeName returnType)
                    output this1)
          else Some this1
      | None => Some this1
      end
  end.

Fixpoint initMethods (fuel : nat) (service : Service.t)
         (methods : list Method.t) (this : t) : option t :=
  match methods with
  | [] => Some this
  | method :: methods' =>
      match initMethod fuel service method this with
      | None => None
      | Some this1 => initMethods fuel service methods' this1
      end
  end.

Definition init (fuel : nat) (service : Service.t) (int : Interface.t)
           (this : t) : option t :=
  initMethods fuel service (Interface.methods int) this.

(** The recursion of [traverse] enters a name only once per mode, and
    below the first call it enters only names that an entity of the service
    refers to, so it is never deeper than their number and two. *)
Definition depth (service : Service.t) : nat :=
  S (S (List.length (references service))).

(** [new InterfaceInfo(service, int)] *)
Definition new (service : Service.t) (int : Interface.t) : option t :=
  init (depth service) service int fresh.
End Resolver.

(** The getters. [get(name) ?? get(name)!] is read on the keys of the two
    maps only, where one of the two look-ups answers. *)
Section Getters.
Variable localeCompare : string -> string -> Z.

Definition merged {V : Type} (a b : JsMap.t V) : list V :=
  flat_map
    (fun name =>
       match JsMap.get a name with
       | Some v => [v]
       | None => match JsMap.get b name with
                 | Some v => [v]
                 | None => []
                 end
       end)
    (sort localeCompare (Set_from (JsMap.keys a ++ JsMap.keys b))).

Definition types (this : t) : list TypeDecl.t :=
  merged (_inputTypes this) (_outputTypes this).

Definition inputTypes (this : t) : list TypeDecl.t :=
  sort (fun a b => localeCompare (TypeDecl.name a) (TypeDecl.name b))
    (JsMap.values (_inputTypes this)).

Definition outputTypes (this : t) : list TypeDecl.t :=
  sort (fun a b => localeCompare (TypeDecl.name a) (TypeDecl.name b))
    (JsMap.values (_outputTypes this)).

Definition unions (this : t) : list Union.t :=
  merged (_inputUnions this) (_outputUnions this).

Definition inputUnions (this : t) : list Union.t :=
  sort (fun a b => localeCompare (Union.name a) (Union.name b))
    (JsMap.values (_inputUnions this)).

Definition outputUnions (this : t) : list Union.t :=
  sort (fun a b => localeCompare (Union.name a) (Union.name b))
    (JsMap.values (_outputUnions this)).

Definition enums (this : t) : list Enum.t :=
  merged (_inputEnums this) (_outputEnums this).
End Getters.

End InterfaceInfo.

(** ** Strings of the renderer *)

Infix "^" := String.append : string_scope.

(** [s.split(' ')] *)
Fixpoint split_space (s : string) : list string :=
  match s with
  | EmptyString => [EmptyString]
  | String c s' =>
      if Ascii.eqb c " "%char then EmptyString :: split_space s'
      else match split_space s' with
           | [] => [String c EmptyString]
           | w :: ws => String c w :: ws
           end
  end.

Definition endsWith (s suffix : string) : bool :=
  (String.length suffix <=? String.length s)%nat
  && (substring (String.length s - String.length suffix)
        (String.length suffix) s =? suffix).

(** ** The collaborators outside the repository

    [localeCompare] and [toLocaleLowerCase] are the string comparison and
    the lower-casing of the JavaScript host; [sameName] is the comparison of
    names of basketry's look-ups; [inheritedText value key] is the text
    that a template literal gives [value[key]] when [value] has that
    property without holding it as an entry (a member of its prototype, the
    length or a character of a string) and it is truthy; [pascal] and
    [title] come from the package [case]; the [build...Name] functions from
    [@basketry/typescript]; [warning] is basketry's provenance banner. *)
Module Host.
Record t := mk {
localeCompare : string -> string -> Z;
sameName : string -> string -> bool;
toLocaleLowerCase : string -> string;
inheritedText : MetaValue -> string -> option string;
pascal : string -> string;
title : string -> string;
buildInterfaceName : Interface.t -> string;
buildMethodName : Method.t -> string;
buildParameterName : ParameterDecl.t -> string;
buildPropertyName : PropertyDecl.t -> string;
buildTypeName : TypedValue.t -> string;
warning : Service.t -> list string }.
End Host.

Definition anchor (host : Host.t) (name : string) : string :=
  "#" ^ join "-" (split_space (Host.toLocaleLowerCase host name)).

(** [parameters] sorted by name *)
Definition sortParameters (host : Host.t) (parameters : list ParameterDecl.t)
  : list ParameterDecl.t :=
  sort (fun a b => Host.localeCompare host (ParameterDecl.name a) (ParameterDecl.name b))
    parameters.

(** The option monad of the renderer: [None] is a recursion that used up its
    fuel. *)
Definition bind {A B : Type} (x : option A) (f : A -> option B) : option B :=
  match x with Some a => f a | None => None end.

Notation "x <- c1 ;; c2" := (bind c1 (fun x => c2))
  (at level 61, c1 at next level, right associativity).

Fixpoint mapM {A B : Type} (f : A -> option B) (l : list A) : option (list B) :=
  match l with
  | [] => Some []
  | x :: l' =>
      y <- f x ;;
      ys <- mapM f l' ;;
      Some (y :: ys)
  end.

(** [for (const x of xs) { yield* f(x) }] for a body that may fail *)
Definition concatM {A B : Type} (f : A -> option (list B)) (l : list A)
  : option (list B) :=
  option_map (@List.concat B) (mapM f l).

(** ** [Builder]: the document renderer (src/readme-factory.ts) *)

Module Builder.
Section Builder.
Variable host : Host.t.
Variable service : Service.t.

Definition warning : list string :=
  ["<!--"] ++ Host.warning host service ++ ["--->"].

Definition methods (int : Interface.t) : list Method.t :=
  sort (fun a b => Host.localeCompare host (Method.name a) (Method.name b))
    (Interface.methods int).

Definition types (int : Interface.t) : option (list TypeDecl.t) :=
  interfaceInfo <- InterfaceInfo.new (Host.sameName host) service int ;;
  Some (sort (fun a b => Host.localeCompare host (TypeDecl.name a) (TypeDecl.name b))
          (InterfaceInfo.types (Host.localeCompare host) interfaceInfo)).

Definition enums (int : Interface.t) : option (list Enum.t) :=
  interfaceInfo <- InterfaceInfo.new (Host.sameName host) service int ;;
  Some (sort (fun a b => Host.localeCompare host (Enum.name a) (Enum.name b))
          (InterfaceInfo.enums (Host.localeCompare host) interfaceInfo)).

Definition buildTypeName (type : TypedValue.t) (skipArrayify : bool)
  : string :=
  let fullyQualifiedName := Host.buildTypeName host type in
  if endsWith fullyQualifiedName "[]" && skipArrayify
  then substring 0 (String.length fullyQualifiedName - 2) fullyQualifiedName
  else fullyQualifiedName.

(** The [switch] of [buildLinkedTypeName] over the primitive kinds. *)
Definition primitiveUri (typeName : string) : option string :=
  if typeName =? "string" then
    Some "https://developer.mozilla.org/en-US/docs/Web/JavaScript/Data_structures#string_type"
  else if (typeName =? "number") || (typeName =? "integer")
          || (typeName =? "long") || (typeName =? "float")
          || (typeName =? "double") then
    Some "https://developer.mozilla.org/en-US/docs/Web/JavaScript/Data_structures#number_type"
  else if typeName =? "boolean" then
    Some "https://developer.mozilla.org/en-US/docs/Web/JavaScript/Data_structures#boolean_type"
  else if (typeName =? "date") || (typeName =? "date-time") then
    Some "https://developer.mozilla.org/en-US/docs/Web/JavaScript/Reference/Global_Objects/Date"
  else if typeName =? "null" then
    Some "https://developer.mozilla.org/en-US/docs/Web/JavaScript/Data_structures#null_type"
  else None.

Definition arraySuffix (param : TypedValue.t) : string :=
  if TypedValue.isArray param then "[]" else EmptyString.

(** The part of [buildLinkedTypeName] below the union test. *)
Definition linkedName (param : TypedValue.t) : string :=
  let typeName := buildTypeName param true in
  if TypedValue.isPrimitive param then
    match primitiveUri (TypedValue.typeName param) with
    | Some uri =>
        "[&lt;" ^ typeName ^ arraySuffix param ^ "&gt;](" ^ uri ^ ")"
    | None => "&lt;" ^ typeName ^ arraySuffix param ^ "&gt;"
    end
  else
    "[&lt;" ^ typeName ^ arraySuffix param ^ "&gt;]("
      ^ anchor host typeName ^ ")".

Fixpoint buildLinkedTypeName (fuel : nat) (param : TypedValue.t)
  : option string :=
  match fuel with
  | O => None
  | S fuel' =>
      match getUnionByName (Host.sameName host) service
              (TypedValue.typeName param) with
      | Some union =>
          rendered <- mapM (buildLinkedTypeName fuel') (Union.members union) ;;
          let members := join " | " rendered in
          Some (if TypedValue.isArray param
                then "(" ^ members ^ ")[]"
                else members)
      | None => Some (linkedName param)
      end
  end.

Definition buildRule (rule : ValidationRule) : list string :=
  match rule with
  | array_max_items max =>
      ["  - Max array length: `" ^ numberToString max ^ "`"]
  | array_min_items min =>
      ["  - Min array length: `" ^ numberToString min ^ "`"]
  | array_unique_items => ["  - Values must be unique"]
  | number_gt value =>
      ["  - Must be greater than `" ^ numberToString value ^ "`"]
  | number_gte value =>
      ["  - Must be greater than or equal to `" ^ numberToString value ^ "`"]
  | number_lt value =>
      ["  - Must be less than `" ^ numberToString value ^ "`"]
  | number_lte value =>
      ["  - Must be less than or equal to `" ^ numberToString value ^ "`"]
  | number_multiple_of value =>
      ["  - Must be a multiple of `" ^ numberToString value ^ "`"]
  | string_max_length length =>
      ["  - Max length: `" ^ numberToString length ^ "`"]
  | string_min_length length =>
      ["  - Min length: `" ^ numberToString length ^ "`"]
  | string_pattern pattern =>
      ["  - Must match pattern: `" ^ pattern ^ "`"]
  | other_rule _ => []
  end.

Definition buildRules (rules : list ValidationRule) : list string :=
  flat_map buildRule rules.

Definition buildParameterDescription (description : option Description)
  : string :=
  match description with
  | None => EmptyString
  | Some (paragraphs lines) => " - " ^ join " " lines
  | Some (single line) => " - " ^ line
  end.

Definition buildParameter (fuel : nat) (param : ParameterDecl.t)
  : option (list string) :=
  linked <- buildLinkedTypeName fuel (ParameterDecl.typed param) ;;
  Some (("- `" ^ Host.buildParameterName host param ^ "` " ^ linked
           ^ (if isRequired (ParameterDecl.rules param)
               then EmptyString else " (optional)")
           ^ buildParameterDescription (ParameterDecl.description param))
          :: buildRules (ParameterDecl.rules param)).

Definition buildProperty (fuel : nat) (prop : PropertyDecl.t)
  : option (list string) :=
  linked <- buildLinkedTypeName fuel (PropertyDecl.typed prop) ;;
  Some (("- `" ^ Host.buildPropertyName host prop ^ "` " ^ linked
           ^ (if isRequired (PropertyDecl.rules prop)
               then EmptyString else " (optional)")
           ^ buildParameterDescription (PropertyDecl.description prop))
          :: buildRules (PropertyDecl.rules prop)).

Definition buildMethodDefinition (method : Method.t) : string :=
  let hasRequiredParams :=
    existsb (fun p => isRequired (ParameterDecl.rules p))
      (Method.parameters method) in
  let parameters :=
    match Method.parameters method with
    | [] => EmptyString
    | _ :: _ =>
        "({"
          ^ join ", "
               (map (fun param =>
                       Host.buildParameterName host param
                         ^ (if isRequired (ParameterDecl.rules param)
                             then EmptyString else "?"))
                  (sortParameters host (Method.parameters method)))
          ^ "}"
          ^ (if hasRequiredParams then EmptyString else " | undefined")
          ^ ")"
    end in
  Host.buildMethodName host method ^ parameters.

(** The lines that a description adds below a heading. *)
Definition descriptionLines (description : option Description)
  : list string :=
  match description with
  | Some (paragraphs lines) => flat_map (fun line => [EmptyString; line]) lines
  | Some (single line) => [EmptyString; line]
  | None => []
  end.

Definition buildMethodDocs (fuel : nat) (method : Method.t)
  : option (list string) :=
  params <-
    match Method.parameters method with
    | [] => Some []
    | _ :: _ =>
        lines <- concatM (buildParameter fuel)
                   (sortParameters host (Method.parameters method)) ;;
        Some (EmptyString :: lines)
    end ;;
  returns <-
    match Method.returnType method with
    | Some returnType =>
        linked <- buildLinkedTypeName fuel returnType ;;
        Some [EmptyString; "Returns: " ^ linked ^ arraySuffix returnType]
    | None => Some []
    end ;;
  Some (["### " ^ Host.buildMethodName host method;
         EmptyString;
         "`" ^ buildMethodDefinition method ^ "`"]
          ++ params ++ returns
          ++ descriptionLines (Method.description method)
          ++ [EmptyString]).

Definition buildInterfaceDescription (int : Interface.t) : list string :=
  match Interface.description int with
  | Some (paragraphs lines) => flat_map (fun para => [para; EmptyString]) lines
  | Some (single line) => [line; EmptyString]
  | None => []
  end.

Definition buildTypeDocs (fuel : nat) (type : TypeDecl.t)
  : option (list string) :=
  props <-
    match TypeDecl.properties type with
    | [] => Some []
    | _ :: _ =>
        lines <- concatM (buildProperty fuel) (TypeDecl.properties type) ;;
        Some (EmptyString :: lines)
    end ;;
  mapProps <-
    match TypeDecl.mapProperties type with
    | Some mapProperties =>
        key <- buildLinkedTypeName fuel (MapProperties.key mapProperties) ;;
        value <- buildLinkedTypeName fuel (MapProperties.value mapProperties) ;;
        Some [EmptyString; "#### Map Properties"; EmptyString;
              "- Keys: " ^ key; "- Values: " ^ value]
    | None => Some []
    end ;;
  Some (["### " ^ Host.pascal host (TypeDecl.name type);
         EmptyString;
         "`" ^ Host.pascal host (TypeDecl.name type) ^ "`"]
          ++ descriptionLines (TypeDecl.description type)
          ++ props ++ mapProps ++ [EmptyString]).

(** [e.meta?.find((m) => m.key.value === key)?.value?.value] *)
Definition metaValue (e : Enum.t) (key : string) : option MetaValue :=
  match Enum.meta e with
  | Some meta => option_map snd (find (fun m => fst m =? key) meta)
  | None => None
  end.

(** A metadata value as the text of a line, when it is truthy; a record
    becomes the text that joining the lines gives an object. *)
Definition truthyText (v : option MetaValue) : option string :=
  match v with
  | Some (meta_string EmptyString) => None
  | Some (meta_string s) => Some s
  | Some (meta_record _) => Some "[object Object]"
  | None => None
  end.

(** [valueDescriptions?.[key]], when it is truthy: the entry that a record
    holds under [key], else what the value has under [key] without holding
    it as an entry, which the host knows. *)
Definition valueDescriptionOf (v : option MetaValue) (key : string)
  : option string :=
  match v with
  | Some (meta_record entries) =>
      match find (fun kv => fst kv =? key) entries with
      | Some (_, EmptyString) => None
      | Some (_, d) => Some d
      | None => Host.inheritedText host (meta_record entries) key
      end
  | Some (meta_string s) => Host.inheritedText host (meta_string s) key
  | None => None
  end.

Definition buildEnumDocs (e : Enum.t) : list string :=
  let description := truthyText (metaValue e "codegen-enum-description") in
  let valueDescriptions := metaValue e "codegen-enum-value-descriptions" in
  ["### " ^ Host.pascal host (Enum.name e);
   EmptyString;
   "`" ^ Host.pascal host (Enum.name e) ^ "`"]
    ++ match description with
       | Some d => [EmptyString; d]
       | None => []
       end
    ++ match Enum.values e with
       | [] => []
       | _ :: _ =>
           EmptyString
             :: map (fun value =>
                       "- `" ^ value ^ "`"
                         ^ match valueDescriptionOf valueDescriptions value with
                            | Some d => " - " ^ d
                            | None => EmptyString
                            end)
                  (Enum.values e)
       end
    ++ [EmptyString].

(** One entry of the table of contents. *)
Definition tocEntry (label target : string) : string :=
  "  - [" ^ label ^ "](" ^ target ^ ")".

Definition tocBlock {A : Type} (heading : string) (entry : A -> string)
           (items : list A) : list string :=
  match items with
  | [] => []
  | _ :: _ => heading :: map entry items
  end.

Definition buildToc (int : Interface.t) : option (list string) :=
  let methods := methods int in
  types <- types int ;;
  enums <- enums int ;;
  Some (tocBlock "- Methods"
          (fun method =>
             tocEntry (Host.buildMethodName host method)
               (anchor host (Host.buildMethodName host method)))
          methods
        ++ tocBlock "- Types"
             (fun type =>
                tocEntry (Host.pascal host (TypeDecl.name type))
                  (anchor host (TypeDecl.name type)))
             types
        ++ tocBlock "- Enums"
             (fun e =>
                tocEntry (Host.pascal host (Enum.name e))
                  (anchor host (Enum.name e)))
             enums).

(** [if (items.length) { yield heading; yield ''; for ... yield* ... }] *)
Definition section {A : Type} (heading : string)
           (docs : A -> option (list string)) (items : list A)
  : option (list string) :=
  match items with
  | [] => Some []
  | _ :: _ =>
      lines <- concatM docs items ;;
      Some (heading :: EmptyString :: lines)
  end.

Definition buildInterfaceDocs (fuel : nat) (int : Interface.t)
  : option (list string) :=
  let methods := methods int in
  types <- types int ;;
  enums <- enums int ;;
  toc <- buildToc int ;;
  methodDocs <- section "## Methods" (buildMethodDocs fuel) methods ;;
  typeDocs <- section "## Types" (buildTypeDocs fuel) types ;;
  enumDocs <- section "## Enums" (fun e => Some (buildEnumDocs e)) enums ;;
  Some (warning
          ++ [EmptyString;
              "# " ^ Host.title host (Host.buildInterfaceName host int);
              EmptyString]
          ++ buildInterfaceDescription int
          ++ toc
          ++ [EmptyString]
          ++ methodDocs ++ typeDocs ++ enumDocs).

(** The contents of the files of [build], one document per interface. *)
Definition build (fuel : nat) : option (list (list string)) :=
  mapM (buildInterfaceDocs fuel) (Service.interfaces service).
End Builder.
End Builder.

(** ** The type graph of a service, as the specification describes it *)

Module Graph.
Section Graph.
Variable sameName : string -> string -> bool.
Variable service : Service.t.

(** A name resolves when one of the three look-ups answers. *)
Definition resolves (name : string) : bool :=
  match getTypeByName sameName service name,
        getUnionByName sameName service name,
        getEnumByName sameName service name with
  | None, None, None => false
  | _, _, _ => true
  end.

(** The references that leave a name: the non-primitive properties of
    the Type it resolves to, else the members of the Union it resolves
    to; an Enum and a dangling name are leaves. *)
Definition successors (name : string) : list string :=
  match getTypeByName sameName service name with
  | Some type =>
      map (fun prop => TypedValue.typeName (PropertyDecl.typed prop))
        (filter (fun prop => negb (TypedValue.isPrimitive (PropertyDecl.typed prop)))
           (TypeDecl.properties type))
  | None =>
      match getUnionByName sameName service name with
      | Some union => map TypedValue.typeName (Union.members union)
      | None => []
      end
  end.

Inductive reach (root : string) : string -> Prop :=
| reach_root : reach root root
| reach_next : forall name next,
    reach root name -> In next (successors name) -> reach root next.

(** The names at which the traversal of an interface starts. *)
Definition inputRoots (int : Interface.t) : list string :=
  flat_map
    (fun method =>
       map (fun param => TypedValue.typeName (ParameterDecl.typed param))
         (Method.parameters method))
    (Interface.methods int).

Definition outputRoots (int : Interface.t) : list string :=
  flat_map
    (fun method =>
       match Method.returnType method with
       | Some returnType =>
           if TypedValue.isPrimitive returnType then []
           else [TypedValue.typeName returnType]
       | None => []
       end)
    (Interface.methods int).

Definition roots (mode : InterfaceInfo.Mode) (int : Interface.t)
  : list string :=
  match mode with
  | InterfaceInfo.input => inputRoots int
  | InterfaceInfo.output => outputRoots int
  end.

(** A name is reachable in a direction when it resolves and a chain of
    references leads to it from a root of that direction. *)
Definition reachable (mode : InterfaceInfo.Mode) (int : Interface.t)
           (name : string) : Prop :=
  resolves name = true
  /\ exists root, In root (roots mode int) /\ reach root name.
End Graph.

(** The union nesting below a name is finite: what the recursion of
    [Builder.buildLinkedTypeName] needs in order to return. *)
Inductive finiteUnion (sameName : string -> string -> bool)
          (service : Service.t) (name : string) : Prop :=
| finite_leaf :
    getUnionByName sameName service name = None ->
    finiteUnion sameName service name
| finite_union : forall union,
    getUnionByName sameName service name = Some union ->
    (forall member, In member (Union.members union) ->
                    finiteUnion sameName service (TypedValue.typeName member)) ->
    finiteUnion sameName service name.
End Graph.

(** ** Order of the exposed collections *)

Section Order.
Context {A : Type} (cmp : A -> A -> Z).

(** The comparator is consistent: it orders any two elements one way or
    the other, transitively. *)
Definition consistent : Prop :=
  (forall a b, (cmp a b <= 0)%Z \/ (cmp b a <= 0)%Z)
  /\ (forall a b c, (cmp a b <= 0)%Z -> (cmp b c <= 0)%Z -> (cmp a c <= 0)%Z).

(** Every element precedes all the later ones. *)
Definition ascending (l : list A) : Prop :=
  StronglySorted (fun a b => (cmp a b <= 0)%Z) l.
End Order.

(** The comparison of the look-ups and the order of the host agree:
    [sameName] is an equivalence, and two names that it tells apart are
    ordered the same way in whatever spelling they are written. *)
Definition coherent (sameName : string -> string -> bool)
           (localeCompare : string -> string -> Z) : Prop :=
  (forall a, sameName a a = true)
  /\ (forall a b, sameName a b = true -> sameName b a = true)
  /\ (forall a b c, sameName a b = true -> sameName b c = true ->
                    sameName a c = true)
  /\ (forall a a' b b',
         sameName a' a = true -> sameName b' b = true ->
         sameName a b = false ->
         (localeCompare a b <= 0)%Z -> (localeCompare a' b' <= 0)%Z).

(** ** Invariants of an instance during [traverse] *)

Module Invariant.
Import InterfaceInfo.
Section Invariant.
Variable sameName : string -> string -> bool.
Variable service : Service.t.
Variable mode : Mode.

(** Every entry is filed under the name it was resolved from, in the
    map of the kind it resolved to, once. *)
Definition wellKeyed (this : t) : Prop :=
  (forall k v, In (k, v) (typesOf mode this) ->
               getTypeByName sameName service k = Some v)
  /\ (forall k v, In (k, v) (unionsOf mode this) ->
                  getTypeByName sameName service k = None
                  /\ getUnionByName sameName service k = Some v)
  /\ (forall k v, In (k, v) (enumsOf mode this) ->
                  getTypeByName sameName service k = None
                  /\ getUnionByName sameName service k = None
                  /\ getEnumByName sameName service k = Some v)
  /\ NoDup (JsMap.keys (typesOf mode this))
  /\ NoDup (JsMap.keys (unionsOf mode this))
  /\ NoDup (JsMap.keys (enumsOf mode this)).

(** Every resolving reference that leaves [k] is visited. *)
Definition closed (this : t) (k : string) : Prop :=
  forall m, In m (Graph.successors sameName service k) ->
            Graph.resolves sameName service m = true ->
            visited mode this m = true.

(** The names referred to that the traversal has not entered yet. *)
Definition unvisited (this : t) : nat :=
  List.length
    (filter (fun n => negb (visited mode this n)) (references service)).

Definition other : Mode :=
  match mode with input => output | output => input end.

(** What a run in [mode] may change: nothing of the other mode, and in
    its own mode it only adds. *)
Definition grows (this this' : t) : Prop :=
  typesOf other this' = typesOf other this
  /\ unionsOf other this' = unionsOf other this
  /\ enumsOf other this' = enumsOf other this
  /\ (forall k, visited mode this k = true -> visited mode this' k = true)
  /\ (wellKeyed this -> wellKeyed this').

(** The result of [traverse] from [name]: what it adds is reachable from
    [name] and closed. *)
Definition traversed (name : string) (this this' : t) : Prop :=
  grows this this'
  /\ (Graph.resolves sameName service name = true ->
      visited mode this' name = true)
  /\ (forall k, visited mode this' k = true ->
                visited mode this k = true
                \/ (Graph.reach sameName service name k /\ closed this' k)).

(** [traverse] returns at this fuel from a name that an entity refers to,
    from every instance that leaves fewer such names unvisited than the
    fuel counts. *)
Definition returnsAt (fuel : nat) : Prop :=
  forall name this,
    In name (references service) ->
    unvisited this < fuel ->
    exists ys this',
      traverse sameName fuel service name mode this = Some (ys, this')
      /\ traversed name this this'.

(** What is visited was reached from a root of [int], and is closed. *)
Definition sound (int : Interface.t) (this : t) : Prop :=
  forall k, visited mode this k = true ->
            (exists root, In root (Graph.roots mode int)
                          /\ Graph.reach sameName service root k)
            /\ closed this k.
End Invariant.

(** The invariant of [init]. *)
Definition resolved (sameName : string -> string -> bool)
           (service : Service.t) (int : Interface.t) (this : t) : Prop :=
  wellKeyed sameName service input this /\ wellKeyed sameName service output this
  /\ sound sameName service input int this
  /\ sound sameName service output int this.

(** Nothing that was visited, in either mode, is lost. *)
Definition keeps (this this' : t) : Prop :=
  forall mode k, visited mode this k = true -> visited mode this' k = true.
End Invariant.

(** ** What a traversal adds to an instance *)

Module Adds.
Import InterfaceInfo.

(** The maps of [this'] are those of [this] with entries added at the end:
    for the types, entries whose values are the yielded Types in the order
    of the yields; and the maps of the other mode are the same. *)
Definition adds (mode : Mode) (ys : list TypeDecl.t) (this this' : t) : Prop :=
  (exists added, typesOf mode this' = typesOf mode this ++ added
                 /\ JsMap.values added = ys)
  /\ (exists added, unionsOf mode this' = unionsOf mode this ++ added)
  /\ (exists added, enumsOf mode this' = enumsOf mode this ++ added)
  /\ typesOf (Invariant.other mode) this' = typesOf (Invariant.other mode) this
  /\ unionsOf (Invariant.other mode) this' = unionsOf (Invariant.other mode) this
  /\ enumsOf (Invariant.other mode) this' = enumsOf (Invariant.other mode) this.
End Adds.

(** ** Results of the renderer *)

(** A fuelled computation returns [a]: it does so from some fuel on. *)
Definition returns {A : Type} (run : nat -> option A) (a : A) : Prop :=
  exists fuel0, forall fuel, fuel0 <= fuel -> run fuel = Some a.

(** The union nesting below every name of the service is finite. *)
Definition finiteUnions (sameName : string -> string -> bool)
           (service : Service.t) : Prop :=
  forall name, Graph.finiteUnion sameName service name.

(** ** Sections of a document *)

(** The comparison of two entities by their names. *)
Definition byName {A : Type} (localeCompare : string -> string -> Z)
           (nameOf : A -> string) (a b : A) : Z :=
  localeCompare (nameOf a) (nameOf b).


(** The anchor that a heading of the document gets from its title: the
    anchor rule applied to the title. *)
Definition headingAnchor (host : Host.t) (title : string) : string :=
  anchor host title.

(** ** Files of the generator (src/name-factory.ts, [Builder.build]) *)

Module NameFactory.
(** [kebab] comes from the package [case]; [majorVersion] is the field of
    the service that the path reads. *)
Definition buildInterfaceDocsFilepath (host : Host.t) (kebab : string -> string)
           (majorVersion : Number) (int : Interface.t) : list string :=
  ["v" ^ numberToString majorVersion;
   kebab (Host.buildInterfaceName host int) ^ ".md"].
End NameFactory.

Module File.
Record t := mk { path : list string; contents : string }.
End File.

(** [Builder.buildInterfaceDocsFile] and [Builder.build] with the files they
    return; [fromLines] is [from] of [@basketry/typescript]. *)
Module Generator.
Section Generator.
Variable host : Host.t.
Variable kebab : string -> string.
Variable fromLines : list string -> string.
Variable majorVersion : Number.
Variable service : Service.t.

Definition buildInterfaceDocsFile (fuel : nat) (int : Interface.t)
  : option File.t :=
  lines <- Builder.buildInterfaceDocs host service fuel int ;;
  Some (File.mk
          (NameFactory.buildInterfaceDocsFilepath host kebab majorVersion int)
          (fromLines lines)).

Definition build (fuel : nat) : option (list File.t) :=
  mapM (buildInterfaceDocsFile fuel) (Service.interfaces service).
End Generator.
End Generator.

(** ** Characters of an anchor *)

(** Every space turned into a hyphen. *)
Fixpoint replaceSpaces (s : string) : string :=
  match s with
  | EmptyString => EmptyString
  | String c s' =>
      String (if Ascii.eqb c " "%char then "-"%char else c) (replaceSpaces s')
  end.

(** ** Kinds of entity and the priority between them *)

Module Kind.
Inductive t := type | union | enum.

(** The kind under which [InterfaceInfo.traverse] files a name: the
    branches [if (type) ... else if (union) ... else if (e)]. *)
Definition resolve (sameName : string -> string -> bool)
           (service : Service.t) (name : string) : option t :=
  match getTypeByName sameName service name,
        getUnionByName sameName service name,
        getEnumByName sameName service name with
  | Some _, _, _ => Some type
  | None, Some _, _ => Some union
  | None, None, Some _ => Some enum
  | None, None, None => None
  end.

(** The priority in the words of the specification: Type, then Enum, then
    Union. *)
Definition resolve_as_specified (sameName : string -> string -> bool)
           (service : Service.t) (name : string) : option t :=
  match getTypeByName sameName service name,
        getEnumByName sameName service name,
        getUnionByName sameName service name with
  | Some _, _, _ => Some type
  | None, Some _, _ => Some enum
  | None, None, Some _ => Some union
  | None, None, None => None
  end.

(** The names that an instance holds in one direction for one kind. *)
Definition names (kind : t) (mode : InterfaceInfo.Mode)
           (this : InterfaceInfo.t) : list string :=
  match kind with
  | type => JsMap.keys (InterfaceInfo.typesOf mode this)
  | union => JsMap.keys (InterfaceInfo.unionsOf mode this)
  | enum => JsMap.keys (InterfaceInfo.enumsOf mode this)
  end.
End Kind.

(** ** Sample services *)

Module Sample.
(** A host for the samples, whose names are written in ASCII.  Lower-casing
    lowers the ASCII capitals; the look-ups compare names in lower case;
    the order compares them in lower case first and puts, of two names that
    differ in case only, the one with the small letter first; names are
    rendered as they are; [pascal] drops the separators [_], [-] and space
    and capitalises the letter that follows; no sample reads a property
    that a value has without holding it. *)
Definition compareBytes (a b : string) : Z :=
  match String_as_OT.cmp a b with
  | Lt => (-1)%Z
  | Eq => 0%Z
  | Gt => 1%Z
  end.

Definition lowerAscii (c : ascii) : ascii :=
  let n := nat_of_ascii c in
  if ((65 <=? n)%nat && (n <=? 90)%nat)%bool then ascii_of_nat (n + 32) else c.

Fixpoint toLocaleLowerCase (s : string) : string :=
  match s with
  | EmptyString => EmptyString
  | String c s' => String (lowerAscii c) (toLocaleLowerCase s')
  end.

Definition sameName (a b : string) : bool :=
  toLocaleLowerCase a =? toLocaleLowerCase b.

Definition localeCompare (a b : string) : Z :=
  match String_as_OT.cmp (toLocaleLowerCase a) (toLocaleLowerCase b) with
  | Lt => (-1)%Z
  | Eq => compareBytes b a
  | Gt => 1%Z
  end.

Definition upperAscii (c : ascii) : ascii :=
  let n := nat_of_ascii c in
  if ((97 <=? n)%nat && (n <=? 122)%nat)%bool then ascii_of_nat (n - 32) else c.

Definition isSeparator (c : ascii) : bool :=
  (Ascii.eqb c "_" || Ascii.eqb c "-" || Ascii.eqb c " ")%bool.

Fixpoint pascalFrom (capitalise : bool) (s : string) : string :=
  match s with
  | EmptyString => EmptyString
  | String c s' =>
      if isSeparator c then pascalFrom true s'
      else String (if capitalise then upperAscii c else c) (pascalFrom false s')
  end.

Definition pascal (s : string) : string := pascalFrom true s.

Definition host : Host.t :=
  Host.mk localeCompare sameName toLocaleLowerCase (fun _ _ => None)
    pascal pascal
    Interface.name Method.name ParameterDecl.name PropertyDecl.name
    (fun type =>
       (if TypedValue.isPrimitive type then TypedValue.typeName type
        else pascal (TypedValue.typeName type))
         ^ (if TypedValue.isArray type then "[]" else EmptyString))
    (fun _ => ["This file was generated"]).

Definition ref (name : string) : TypedValue.t := TypedValue.mk name false false.
Definition arrayOf (name : string) : TypedValue.t := TypedValue.mk name false true.
Definition primitive (name : string) : TypedValue.t := TypedValue.mk name true false.
Definition required : list ValidationRule := [other_rule "required"].

(** [Node] has a property [next] of type [Node]. *)
Definition Node : TypeDecl.t :=
  TypeDecl.mk "Node" None
    [PropertyDecl.mk "next" None (ref "Node") []] None.

Definition nodeInterface : Interface.t :=
  Interface.mk "nodes"
    [Method.mk "visit" [ParameterDecl.mk "node" None (ref "Node") required]
       None None]
    None.

Definition nodeService : Service.t :=
  Service.mk [nodeInterface] [Node] [] [].

(** [create(input: Widget): WidgetReceipt] *)
Definition Widget : TypeDecl.t :=
  TypeDecl.mk "Widget" None
    [PropertyDecl.mk "size" None (primitive "number") []] None.

Definition WidgetReceipt : TypeDecl.t :=
  TypeDecl.mk "WidgetReceipt" None
    [PropertyDecl.mk "id" None (primitive "string") required] None.

Definition widgetInterface : Interface.t :=
  Interface.mk "widgets"
    [Method.mk "create"
       [ParameterDecl.mk "input" None (ref "Widget") required]
       (Some (ref "WidgetReceipt")) None]
    None.

Definition widgetService : Service.t :=
  Service.mk [widgetInterface] [Widget; WidgetReceipt] [] [].

(** A parameter typed as the union of [Cat] and [Dog]. *)
Definition Cat : TypeDecl.t := TypeDecl.mk "Cat" None [] None.
Definition Dog : TypeDecl.t := TypeDecl.mk "Dog" None [] None.
Definition Pet : Union.t := Union.mk "Pet" [ref "Cat"; ref "Dog"].

Definition petInterface : Interface.t :=
  Interface.mk "pets"
    [Method.mk "adopt" [ParameterDecl.mk "pet" None (ref "Pet") required]
       None None]
    None.

Definition petService : Service.t :=
  Service.mk [petInterface] [Cat; Dog] [] [Pet].

(** The name [Shade] is both an Enum and a Union. *)
Definition shadeEnum : Enum.t := Enum.mk "Shade" ["dark"; "light"] None.
Definition shadeUnion : Union.t := Union.mk "Shade" [primitive "string"].

Definition shadeInterface : Interface.t :=
  Interface.mk "shades"
    [Method.mk "paint" [ParameterDecl.mk "shade" None (ref "Shade") required]
       None None]
    None.

Definition shadeService : Service.t :=
  Service.mk [shadeInterface] [] [shadeEnum] [shadeUnion].
(** A method without parameters and one whose parameters are all optional. *)
Definition ping : Method.t := Method.mk "ping" [] None None.

Definition search : Method.t :=
  Method.mk "search"
    [ParameterDecl.mk "query" None (primitive "string") [];
     ParameterDecl.mk "limit" None (primitive "integer") []]
    None None.

(** A return value that is an array of the union [Pet]. *)
Definition listPets : Method.t :=
  Method.mk "listPets" [] (Some (arrayOf "Pet")) None.

(** A type whose name has a separator, as a schema in snake case gives. *)
Definition widget_receipt : TypeDecl.t :=
  TypeDecl.mk "widget_receipt" None [] None.

Definition receiptInterface : Interface.t :=
  Interface.mk "receipts"
    [Method.mk "file"
       [ParameterDecl.mk "receipt" None (ref "widget_receipt") required]
       None None]
    None.

Definition receiptService : Service.t :=
  Service.mk [receiptInterface] [widget_receipt] [] [].

(** [Haunted] has a property of a type [Ghost] that the service does not
    declare; the method also takes a parameter of the undeclared type
    [Phantom]. *)
Definition Haunted : TypeDecl.t :=
  TypeDecl.mk "Haunted" None
    [PropertyDecl.mk "ghost" None (ref "Ghost") required] None.

Definition hauntedInterface : Interface.t :=
  Interface.mk "haunts"
    [Method.mk "haunt"
       [ParameterDecl.mk "house" None (ref "Haunted") required;
        ParameterDecl.mk "phantom" None (ref "Phantom") []]
       None None]
    None.

Definition hauntedService : Service.t :=
  Service.mk [hauntedInterface] [Haunted] [] [].

(** [Json] is a union that has an array of itself among its members. *)
Definition Json : Union.t :=
  Union.mk "Json" [primitive "string"; arrayOf "Json"].

Definition jsonService : Service.t := Service.mk [] [] [] [Json].

(** Entities declared and used against the order of their names. *)
Definition Zebra : TypeDecl.t :=
  TypeDecl.mk "Zebra" None
    [PropertyDecl.mk "stripes" None (primitive "integer") required;
     PropertyDecl.mk "age" None (primitive "integer") []]
    None.

Definition Ant : TypeDecl.t := TypeDecl.mk "Ant" None [] None.

Definition zap : Method.t :=
  Method.mk "zap" [ParameterDecl.mk "zebra" None (ref "Zebra") required]
    None None.

Definition add : Method.t :=
  Method.mk "add" [ParameterDecl.mk "ant" None (ref "Ant") required]
    (Some (ref "Zebra")) None.

Definition zooInterface : Interface.t := Interface.mk "zoo" [zap; add] None.

Definition zooService : Service.t :=
  Service.mk [zooInterface] [Zebra; Ant] [] [].

(** Two methods that share a parameter type; a type with a nested type. *)
Definition Stable : TypeDecl.t :=
  TypeDecl.mk "Stable" None
    [PropertyDecl.mk "resident" None (ref "Zebra") required;
     PropertyDecl.mk "name" None (primitive "string") []]
    None.

Definition stableInterface : Interface.t :=
  Interface.mk "stables"
    [Method.mk "open" [ParameterDecl.mk "stable" None (ref "Stable") required]
       (Some (primitive "boolean")) None]
    None.

Definition stableService : Service.t :=
  Service.mk [stableInterface] [Zebra; Stable] [] [].

(** An interface without methods. *)
Definition idleInterface : Interface.t :=
  Interface.mk "idle" [] (Some (single "Nothing to call.")).

(** [Node] with the type of its property [next] written [node]. *)
Definition LooseNode : TypeDecl.t :=
  TypeDecl.mk "Node" None
    [PropertyDecl.mk "next" None (ref "node") []] None.

Definition looseInterface : Interface.t :=
  Interface.mk "nodes"
    [Method.mk "visit" [ParameterDecl.mk "node" None (ref "Node") required]
       None None]
    None.

Definition looseService : Service.t :=
  Service.mk [looseInterface] [LooseNode] [] [].

(** [copy(source: Sheet): sheet]: the return value names the type of the
    parameter in small letters. *)
Definition Sheet : TypeDecl.t :=
  TypeDecl.mk "Sheet" None
    [PropertyDecl.mk "title" None (primitive "string") required] None.

Definition copyInterface : Interface.t :=
  Interface.mk "sheets"
    [Method.mk "copy" [ParameterDecl.mk "source" None (ref "Sheet") required]
       (Some (ref "sheet")) None]
    None.

Definition copyService : Service.t :=
  Service.mk [copyInterface] [Sheet] [] [].
End Sample.

(** * Properties *)

(** ** Containers *)

Module JsMapFacts.
Section Facts.
Context {V : Type}.
Implicit Types (m : JsMap.t V) (k : string) (v : V).

Lemma has_keys m k : JsMap.has m k = true <-> In k (JsMap.keys m).
Proof.
  unfold JsMap.has, JsMap.keys. rewrite existsb_exists, in_map_iff.
  split; intros [[k' v'] [H1 H2]]; exists (k', v'); simpl in *.
  - apply String.eqb_eq in H2. auto.
  - subst. split; [assumption | apply String.eqb_refl].
Qed.

Lemma has_false m k : JsMap.has m k = false <-> ~ In k (JsMap.keys m).
Proof.
  rewrite <- has_keys. destruct (JsMap.has m k); split; congruence.
Qed.

Lemma keys_set m k v k' :
  In k' (JsMap.keys (JsMap.set m k v)) <-> k' = k \/ In k' (JsMap.keys m).
Proof.
  induction m as [|[a b] m IH]; simpl.
  - intuition.
  - destruct (String.eqb_spec a k) as [->|Hne]; simpl.
    + intuition.
    + unfold JsMap.keys in IH. rewrite IH. intuition.
Qed.

Lemma In_set m k v k' v' :
  In (k', v') (JsMap.set m k v) -> (k' = k /\ v' = v) \/ In (k', v') m.
Proof.
  induction m as [|[a b] m IH]; simpl.
  - intros [H|[]]. inversion H. auto.
  - destruct (String.eqb_spec a k) as [->|Hne]; simpl.
    + intros [H|H]; [inversion H; auto | auto].
    + intros [H|H]; [auto | destruct (IH H); auto].
Qed.

Lemma set_fresh m k v :
  ~ In k (JsMap.keys m) -> JsMap.set m k v = m ++ [(k, v)].
Proof.
  induction m as [|[a b] m IH]; simpl; intros H.
  - reflexivity.
  - destruct (String.eqb_spec a k) as [->|Hne].
    + exfalso. auto.
    + f_equal. apply IH. auto.
Qed.

Lemma NoDup_keys_set m k v :
  NoDup (JsMap.keys m) -> NoDup (JsMap.keys (JsMap.set m k v)).
Proof.
  induction m as [|[a b] m IH]; simpl; intros H.
  - constructor; [intros [] | constructor].
  - inversion H; subst.
    destruct (String.eqb_spec a k) as [->|Hne]; simpl.
    + constructor; assumption.
    + constructor; [| apply IH; assumption].
      intros Hin. apply keys_set in Hin. destruct Hin; [congruence | auto].
Qed.

Lemma get_In m k v :
  NoDup (JsMap.keys m) -> In (k, v) m -> JsMap.get m k = Some v.
Proof.
  unfold JsMap.get.
  induction m as [|[a b] m IH]; simpl; intros Hnd Hin; [contradiction|].
  inversion Hnd; subst.
  destruct Hin as [Heq|Hin].
  - inversion Heq; subst. rewrite String.eqb_refl. reflexivity.
  - destruct (String.eqb_spec a k) as [->|Hne].
    + exfalso. apply H1. change (In k (JsMap.keys m)).
      unfold JsMap.keys. apply in_map_iff. exists (k, v). auto.
    + apply IH; assumption.
Qed.

Lemma get_Some m k v : JsMap.get m k = Some v -> In (k, v) m.
Proof.
  unfold JsMap.get.
  destruct (find (fun kv => fst kv =? k) m) as [[a b]|] eqn:E; simpl;
    [| discriminate].
  intros H; inversion H; subst.
  apply find_some in E. destruct E as [E1 E2]. simpl in E2.
  apply String.eqb_eq in E2. subst. assumption.
Qed.

Lemma get_None m k : JsMap.get m k = None -> ~ In k (JsMap.keys m).
Proof.
  unfold JsMap.get, JsMap.keys.
  destruct (find (fun kv => fst kv =? k) m) as [[a b]|] eqn:E; simpl;
    [discriminate|].
  intros _ Hin. apply in_map_iff in Hin. destruct Hin as [[a b] [H1 H2]].
  simpl in H1; subst.
  pose proof (find_none _ _ E _ H2) as Hf. simpl in Hf.
  rewrite String.eqb_refl in Hf. discriminate.
Qed.
End Facts.
End JsMapFacts.

Module SortFacts.
Lemma Set_from_In l x : In x (Set_from l) <-> In x l.
Proof.
  induction l as [|a l IH]; simpl; [tauto|].
  rewrite filter_In, IH.
  destruct (String.eqb_spec x a) as [->|Hne]; simpl; intuition congruence.
Qed.

Lemma Set_from_NoDup l : NoDup (Set_from l).
Proof.
  induction l as [|a l IH]; simpl; constructor.
  - rewrite filter_In, String.eqb_refl. simpl. intros [_ H]. discriminate.
  - apply NoDup_filter. assumption.
Qed.

Section Sorting.
Context {A : Type} (cmp : A -> A -> Z).

Lemma insert_Permutation x l : Permutation (x :: l) (insert cmp x l).
Proof.
  induction l as [|y l IH]; simpl; [reflexivity|].
  destruct (cmp x y <=? 0)%Z; [reflexivity|].
  rewrite perm_swap. constructor. assumption.
Qed.

Lemma sort_Permutation l : Permutation l (sort cmp l).
Proof.
  induction l as [|x l IH]; simpl; [constructor|].
  rewrite <- insert_Permutation. constructor. assumption.
Qed.

Lemma sort_In l x : In x (sort cmp l) <-> In x l.
Proof.
  split; apply Permutation_in;
    [symmetry|]; apply sort_Permutation.
Qed.

Lemma insert_ascending x l :
  consistent cmp -> ascending cmp l -> ascending cmp (insert cmp x l).
Proof.
  intros [Htot Htrans]. unfold ascending.
  induction l as [|y l IH]; simpl; intros Hs.
  - constructor; constructor.
  - inversion Hs as [|? ? Hs' Hall]; subst.
    destruct (Z.leb_spec (cmp x y) 0) as [Hle|Hgt].
    + constructor; [assumption|].
      constructor; [assumption|].
      eapply Forall_impl; [|exact Hall]. intros z Hz. eauto.
    + constructor; [apply IH; assumption|].
      assert (Hyx : (cmp y x <= 0)%Z) by (destruct (Htot x y); [lia | assumption]).
      eapply Permutation_Forall; [apply insert_Permutation|].
      constructor; assumption.
Qed.

Lemma sort_ascending l : consistent cmp -> ascending cmp (sort cmp l).
Proof.
  intros Hc. induction l as [|x l IH]; simpl.
  - constructor.
  - apply insert_ascending; assumption.
Qed.

(** Sorting a list that is in order already leaves it as it is. *)
Lemma sort_ascending_id l : ascending cmp l -> sort cmp l = l.
Proof.
  unfold ascending. induction 1 as [|x l Hs IH Hall]; simpl; [reflexivity|].
  rewrite IH. destruct l as [|y l]; simpl; [reflexivity|].
  inversion Hall; subst.
  destruct (Z.leb_spec (cmp x y) 0); [reflexivity | lia].
Qed.
End Sorting.

Lemma ascending_map {A B : Type} (f : A -> B) (cmp : B -> B -> Z) l :
  ascending cmp (map f l) <-> ascending (fun a b => cmp (f a) (f b)) l.
Proof.
  unfold ascending. induction l as [|x l IH]; simpl.
  - split; constructor.
  - split; intros H; inversion H; subst; constructor;
      try (apply IH; assumption).
    + rewrite Forall_map in H3. assumption.
    + rewrite Forall_map. assumption.
Qed.

Lemma sort_map {A B : Type} (f : A -> B) (cmp : B -> B -> Z) l :
  map f (sort (fun a b => cmp (f a) (f b)) l) = sort cmp (map f l).
Proof.
  induction l as [|x l IH]; simpl; [reflexivity|].
  rewrite <- IH. generalize (sort (fun a b => cmp (f a) (f b)) l).
  intros s. induction s as [|y s IHs]; simpl; [reflexivity|].
  destruct (cmp (f x) (f y) <=? 0)%Z; simpl; [reflexivity|].
  rewrite IHs. reflexivity.
Qed.
Lemma consistent_byName {A : Type} (localeCompare : string -> string -> Z)
      (nameOf : A -> string) :
  consistent localeCompare -> consistent (byName localeCompare nameOf).
Proof.
  intros [Htot Htrans]. unfold byName. split.
  - intros a b. apply Htot.
  - intros a b c. apply Htrans.
Qed.

Lemma ascending_byName {A : Type} (localeCompare : string -> string -> Z)
      (nameOf : A -> string) (l : list A) :
  ascending localeCompare (map nameOf l) ->
  ascending (byName localeCompare nameOf) l.
Proof. intros H. apply (proj1 (ascending_map nameOf localeCompare l) H). Qed.

Lemma compareBytes_consistent : consistent Sample.compareBytes.
Proof.
  unfold Sample.compareBytes. split.
  - intros a b. rewrite (String_as_OT.cmp_antisym a b).
    destruct (String_as_OT.cmp b a); simpl; lia.
  - intros a b c Hab Hbc.
    destruct (String_as_OT.cmp a b) eqn:Eab; [| |lia].
    + apply String_as_OT.cmp_eq in Eab. subst. assumption.
    + destruct (String_as_OT.cmp b c) eqn:Ebc; [| |lia].
      * apply String_as_OT.cmp_eq in Ebc. subst. rewrite Eab. lia.
      * apply String_as_OT.cmp_lt in Eab, Ebc.
        pose proof (String_as_OT.lt_trans _ _ _ Eab Ebc) as Hac.
        apply String_as_OT.cmp_lt in Hac. rewrite Hac. lia.
Qed.

Lemma localeCompare_consistent : consistent Sample.localeCompare.
Proof.
  destruct compareBytes_consistent as [Htot Htrans].
  unfold Sample.localeCompare. split.
  - intros a b.
    rewrite (String_as_OT.cmp_antisym (Sample.toLocaleLowerCase a)
               (Sample.toLocaleLowerCase b)).
    destruct (String_as_OT.cmp (Sample.toLocaleLowerCase b)
                (Sample.toLocaleLowerCase a)); simpl; try lia.
    apply Htot.
  - intros a b c.
    destruct (String_as_OT.cmp (Sample.toLocaleLowerCase a)
                (Sample.toLocaleLowerCase b)) eqn:Eab; [| |lia];
      (destruct (String_as_OT.cmp (Sample.toLocaleLowerCase b)
                   (Sample.toLocaleLowerCase c)) eqn:Ebc; [| |lia]).
    + apply String_as_OT.cmp_eq in Eab. rewrite Eab, Ebc. eauto.
    + apply String_as_OT.cmp_eq in Eab. rewrite Eab, Ebc. lia.
    + apply String_as_OT.cmp_eq in Ebc. rewrite <- Ebc, Eab. lia.
    + apply String_as_OT.cmp_lt in Eab, Ebc.
      pose proof (String_as_OT.lt_trans _ _ _ Eab Ebc) as Hac.
      apply String_as_OT.cmp_lt in Hac. rewrite Hac. lia.
Qed.

(** Look-ups that compare the names letter by letter are coherent with
    every order. *)
Lemma coherent_eqb (localeCompare : string -> string -> Z) :
  coherent String.eqb localeCompare.
Proof.
  unfold coherent.
  split; [intros a; apply String.eqb_refl|].
  split; [intros a b; rewrite !String.eqb_eq; congruence|].
  split; [intros a b c; rewrite !String.eqb_eq; congruence|].
  intros a a' b b'. rewrite !String.eqb_eq. intros -> -> _ H. exact H.
Qed.


End SortFacts.

(** ** The traversal *)

Module TraverseFacts.
Import InterfaceInfo Invariant.

Lemma filter_length_le {A : Type} (f g : A -> bool) (l : list A) :
  (forall x, g x = true -> f x = true) ->
  List.length (filter g l) <= List.length (filter f l).
Proof.
  intros H. induction l as [|a l IH]; simpl; [lia|].
  destruct (g a) eqn:G.
  - rewrite (H a G). simpl. lia.
  - destruct (f a); simpl; lia.
Qed.

Lemma filter_length_lt {A : Type} (f g : A -> bool) (l : list A) (a : A) :
  (forall x, g x = true -> f x = true) ->
  In a l -> f a = true -> g a = false ->
  List.length (filter g l) < List.length (filter f l).
Proof.
  intros H. induction l as [|b l IH]; simpl; [contradiction|].
  intros [->|Hin] Fa Ga.
  - rewrite Fa, Ga. simpl.
    pose proof (filter_length_le f g l H). lia.
  - specialize (IH Hin Fa Ga).
    destruct (g b) eqn:G.
    + rewrite (H b G). simpl. lia.
    + destruct (f b); simpl; lia.
Qed.

Section Lookups.
Variable sameName : string -> string -> bool.
Variable service : Service.t.

Lemma getTypeByName_Some n v :
  getTypeByName sameName service n = Some v ->
  sameName (TypeDecl.name v) n = true /\ In v (Service.types service).
Proof.
  unfold getTypeByName. intros H. apply find_some in H.
  destruct H as [H1 H2]. apply in_rev in H1. auto.
Qed.

Lemma getUnionByName_Some n v :
  getUnionByName sameName service n = Some v ->
  sameName (Union.name v) n = true /\ In v (Service.unions service).
Proof.
  unfold getUnionByName. intros H. apply find_some in H.
  destruct H as [H1 H2]. apply in_rev in H1. auto.
Qed.

Lemma getEnumByName_Some n v :
  getEnumByName sameName service n = Some v ->
  sameName (Enum.name v) n = true /\ In v (Service.enums service).
Proof.
  unfold getEnumByName. intros H. apply find_some in H.
  destruct H as [H1 H2]. apply in_rev in H1. auto.
Qed.

Lemma property_references n type prop :
  getTypeByName sameName service n = Some type ->
  In prop (TypeDecl.properties type) ->
  In (TypedValue.typeName (PropertyDecl.typed prop)) (references service).
Proof.
  intros T Hp. unfold references. apply in_or_app. left.
  apply in_flat_map. exists type.
  split; [apply (getTypeByName_Some _ _ T)|].
  apply (in_map (fun p => TypedValue.typeName (PropertyDecl.typed p))).
  assumption.
Qed.

Lemma member_references n union member :
  getUnionByName sameName service n = Some union ->
  In member (Union.members union) ->
  In (TypedValue.typeName member) (references service).
Proof.
  intros U Hm. unfold references. apply in_or_app. right.
  apply in_flat_map. exists union.
  split; [apply (getUnionByName_Some _ _ U)|].
  apply in_map. assumption.
Qed.

Lemma successors_resolves n k :
  In k (Graph.successors sameName service n) -> Graph.resolves sameName service n = true.
Proof.
  unfold Graph.successors, Graph.resolves.
  destruct (getTypeByName sameName service n); [reflexivity|].
  destruct (getUnionByName sameName service n); [reflexivity|].
  contradiction.
Qed.

Lemma reach_trans a b c :
  Graph.reach sameName service a b -> Graph.reach sameName service b c ->
  Graph.reach sameName service a c.
Proof.
  intros Hab Hbc. induction Hbc.
  - assumption.
  - eapply Graph.reach_next; eassumption.
Qed.

Lemma reach_edge a b c :
  In b (Graph.successors sameName service a) -> Graph.reach sameName service b c ->
  Graph.reach sameName service a c.
Proof.
  intros Hin Hbc. eapply reach_trans; [|exact Hbc].
  eapply Graph.reach_next; [constructor | exact Hin].
Qed.
End Lookups.

Section Maps.
Variable mode : Mode.

Lemma visited_iff this n :
  visited mode this n = true <->
  In n (JsMap.keys (typesOf mode this))
  \/ In n (JsMap.keys (unionsOf mode this))
  \/ In n (JsMap.keys (enumsOf mode this)).
Proof.
  unfold visited. rewrite !orb_true_iff, !JsMapFacts.has_keys. tauto.
Qed.

Lemma typesOf_setType k v this :
  typesOf mode (setType mode k v this) = JsMap.set (typesOf mode this) k v
  /\ unionsOf mode (setType mode k v this) = unionsOf mode this
  /\ enumsOf mode (setType mode k v this) = enumsOf mode this
  /\ typesOf (other mode) (setType mode k v this) = typesOf (other mode) this
  /\ unionsOf (other mode) (setType mode k v this) = unionsOf (other mode) this
  /\ enumsOf (other mode) (setType mode k v this) = enumsOf (other mode) this.
Proof. destruct mode; simpl; repeat split. Qed.

Lemma unionsOf_setUnion k v this :
  typesOf mode (setUnion mode k v this) = typesOf mode this
  /\ unionsOf mode (setUnion mode k v this) = JsMap.set (unionsOf mode this) k v
  /\ enumsOf mode (setUnion mode k v this) = enumsOf mode this
  /\ typesOf (other mode) (setUnion mode k v this) = typesOf (other mode) this
  /\ unionsOf (other mode) (setUnion mode k v this) = unionsOf (other mode) this
  /\ enumsOf (other mode) (setUnion mode k v this) = enumsOf (other mode) this.
Proof. destruct mode; simpl; repeat split. Qed.

Lemma enumsOf_setEnum k v this :
  typesOf mode (setEnum mode k v this) = typesOf mode this
  /\ unionsOf mode (setEnum mode k v this) = unionsOf mode this
  /\ enumsOf mode (setEnum mode k v this) = JsMap.set (enumsOf mode this) k v
  /\ typesOf (other mode) (setEnum mode k v this) = typesOf (other mode) this
  /\ unionsOf (other mode) (setEnum mode k v this) = unionsOf (other mode) this
  /\ enumsOf (other mode) (setEnum mode k v this) = enumsOf (other mode) this.
Proof. destruct mode; simpl; repeat split. Qed.

Lemma visited_setType k v this n :
  visited mode (setType mode k v this) n = true <->
  n = k \/ visited mode this n = true.
Proof.
  rewrite !visited_iff.
  destruct (typesOf_setType k v this) as (-> & -> & -> & _).
  rewrite JsMapFacts.keys_set. tauto.
Qed.

Lemma visited_setUnion k v this n :
  visited mode (setUnion mode k v this) n = true <->
  n = k \/ visited mode this n = true.
Proof.
  rewrite !visited_iff.
  destruct (unionsOf_setUnion k v this) as (-> & -> & -> & _).
  rewrite JsMapFacts.keys_set. tauto.
Qed.

Lemma visited_setEnum k v this n :
  visited mode (setEnum mode k v this) n = true <->
  n = k \/ visited mode this n = true.
Proof.
  rewrite !visited_iff.
  destruct (enumsOf_setEnum k v this) as (-> & -> & -> & _).
  rewrite JsMapFacts.keys_set. tauto.
Qed.

End Maps.

Section Steps.
Variable sameName : string -> string -> bool.
Variable service : Service.t.
Variable mode : Mode.

Lemma grows_refl this : grows sameName service mode this this.
Proof. unfold grows. auto 10. Qed.

Lemma grows_trans a b c :
  grows sameName service mode a b -> grows sameName service mode b c -> grows sameName service mode a c.
Proof.
  unfold grows.
  intros (T1 & U1 & E1 & M1 & W1) (T2 & U2 & E2 & M2 & W2).
  split; [congruence|]. split; [congruence|]. split; [congruence|].
  split; [intros k Hk; apply M2, M1, Hk | intros Hw; apply W2, W1, Hw].
Qed.

Lemma grows_setType k v this :
  getTypeByName sameName service k = Some v ->
  grows sameName service mode this (setType mode k v this).
Proof.
  intros Hk. unfold grows, wellKeyed.
  destruct (typesOf_setType mode k v this) as (T & U & E & T' & U' & E').
  rewrite T, U, E, T', U', E'.
  split; [reflexivity|]. split; [reflexivity|]. split; [reflexivity|].
  split; [intros n; rewrite visited_setType; auto|].
  intros (WT & WU & WE & NT & NU & NE).
  repeat apply conj; try assumption.
  - intros k' v' Hin. apply JsMapFacts.In_set in Hin.
    destruct Hin as [[-> ->]|Hin]; [assumption | eauto].
  - apply JsMapFacts.NoDup_keys_set. assumption.
Qed.

Lemma grows_setUnion k v this :
  getTypeByName sameName service k = None ->
  getUnionByName sameName service k = Some v ->
  grows sameName service mode this (setUnion mode k v this).
Proof.
  intros Hk Hu. unfold grows, wellKeyed.
  destruct (unionsOf_setUnion mode k v this) as (T & U & E & T' & U' & E').
  rewrite T, U, E, T', U', E'.
  split; [reflexivity|]. split; [reflexivity|]. split; [reflexivity|].
  split; [intros n; rewrite visited_setUnion; auto|].
  intros (WT & WU & WE & NT & NU & NE).
  repeat apply conj; try assumption.
  - intros k' v' Hin. apply JsMapFacts.In_set in Hin.
    destruct Hin as [[-> ->]|Hin]; [auto | eauto].
  - apply JsMapFacts.NoDup_keys_set. assumption.
Qed.

Lemma grows_setEnum k v this :
  getTypeByName sameName service k = None ->
  getUnionByName sameName service k = None ->
  getEnumByName sameName service k = Some v ->
  grows sameName service mode this (setEnum mode k v this).
Proof.
  intros Hk Hu He. unfold grows, wellKeyed.
  destruct (enumsOf_setEnum mode k v this) as (T & U & E & T' & U' & E').
  rewrite T, U, E, T', U', E'.
  split; [reflexivity|]. split; [reflexivity|]. split; [reflexivity|].
  split; [intros n; rewrite visited_setEnum; auto|].
  intros (WT & WU & WE & NT & NU & NE).
  repeat apply conj; try assumption.
  - intros k' v' Hin. apply JsMapFacts.In_set in Hin.
    destruct Hin as [[-> ->]|Hin]; [auto | eauto].
  - apply JsMapFacts.NoDup_keys_set. assumption.
Qed.

Lemma closed_grows this this' k :
  grows sameName service mode this this' ->
  closed sameName service mode this k -> closed sameName service mode this' k.
Proof.
  intros (_ & _ & _ & M & _) Hc m Hm Hr. apply M. apply Hc; assumption.
Qed.

Lemma unvisited_le this this' :
  grows sameName service mode this this' ->
  unvisited service mode this' <= unvisited service mode this.
Proof.
  intros (_ & _ & _ & M & _). unfold unvisited.
  apply filter_length_le. intros x Hx.
  destruct (visited mode this x) eqn:V; [|reflexivity].
  rewrite (M x V) in Hx. discriminate.
Qed.

Lemma unvisited_lt this this' k :
  grows sameName service mode this this' ->
  In k (references service) ->
  visited mode this k = false -> visited mode this' k = true ->
  unvisited service mode this' < unvisited service mode this.
Proof.
  intros (_ & _ & _ & M & _) Hr V V'. unfold unvisited.
  apply filter_length_lt with (a := k).
  - intros x Hx.
    destruct (visited mode this x) eqn:Vx; [|reflexivity].
    rewrite (M x Vx) in Hx. discriminate.
  - assumption.
  - rewrite V. reflexivity.
  - rewrite V'. reflexivity.
Qed.

Lemma unvisited_depth this : S (unvisited service mode this) < depth service.
Proof.
  unfold unvisited, depth.
  pose proof (filter_length_le (fun _ => true)
                (fun n => negb (visited mode this n))
                (references service) (fun _ _ => eq_refl)) as H.
  rewrite (forallb_filter_id (fun _ : string => true)) in H
    by (apply forallb_forall; reflexivity).
  lia.
Qed.
End Steps.
End TraverseFacts.

Module TraverseSpec.
Import InterfaceInfo Invariant TraverseFacts.

Lemma traverse_S fuel sameName service typeName mode this :
  traverse sameName (S fuel) service typeName mode this =
  if visited mode this typeName then Some ([], this)
  else
    match getTypeByName sameName service typeName, getUnionByName sameName service typeName,
          getEnumByName sameName service typeName with
    | Some type, _, _ =>
        match
          forEach
            (fun prop this' =>
               if negb (TypedValue.isPrimitive (PropertyDecl.typed prop))
               then traverse sameName fuel service
                      (TypedValue.typeName (PropertyDecl.typed prop))
                      mode this'
               else Some ([], this'))
            (TypeDecl.properties type)
            (setType mode typeName type this)
        with
        | None => None
        | Some (ys, this') => Some (type :: ys, this')
        end
    | None, Some union, _ =>
        forEach
          (fun member this' =>
             traverse sameName fuel service (TypedValue.typeName member) mode this')
          (Union.members union)
          (setUnion mode typeName union this)
    | None, None, Some e => Some ([], setEnum mode typeName e this)
    | None, None, None => Some ([], this)
    end.
Proof. reflexivity. Qed.

Section Loop.
Variable sameName : string -> string -> bool.
Variable service : Service.t.
Variable mode : Mode.

(** The loop runs [traverse] at [fuel], which returns from the names
    [within] from every instance that leaves fewer than [bound] names
    unvisited. *)
Variables fuel bound : nat.
Variable within : string -> Prop.
Hypothesis Hfuel : forall name this,
    within name ->
    unvisited service mode this < bound ->
    exists ys this',
      traverse sameName fuel service name mode this = Some (ys, this')
      /\ traversed sameName service mode name this this'.

Context {A : Type} (on : A -> bool) (nm : A -> string).
Variable body : A -> t -> Gen.
Hypothesis Hbody : forall x this,
    body x this =
    if on x then traverse sameName fuel service (nm x) mode this
    else Some ([], this).

Lemma forEach_returns xs : forall this,
    (forall x, In x xs -> on x = true -> within (nm x)) ->
    unvisited service mode this < bound ->
    exists ys this',
      forEach body xs this = Some (ys, this')
      /\ grows sameName service mode this this'
      /\ (forall x, In x xs -> on x = true ->
                    Graph.resolves sameName service (nm x) = true ->
                    visited mode this' (nm x) = true)
      /\ (forall k, visited mode this' k = true ->
                    visited mode this k = true
                    \/ ((exists x, In x xs /\ on x = true
                                   /\ Graph.reach sameName service (nm x) k)
                        /\ closed sameName service mode this' k)).
Proof.
  induction xs as [|x xs IH]; intros this Hin Hlt; simpl.
  - exists [], this. split; [reflexivity|].
    split; [apply grows_refl|]. split; [intros ? []|]. auto.
  - assert (Hx : exists ys this1,
               body x this = Some (ys, this1)
               /\ grows sameName service mode this this1
               /\ (on x = true ->
                   Graph.resolves sameName service (nm x) = true ->
                   visited mode this1 (nm x) = true)
               /\ (forall k, visited mode this1 k = true ->
                             visited mode this k = true
                             \/ (on x = true
                                 /\ Graph.reach sameName service (nm x) k
                                 /\ closed sameName service mode this1 k))).
    { rewrite Hbody. destruct (on x) eqn:On.
      - destruct (Hfuel (nm x) this (Hin x (or_introl eq_refl) On) Hlt)
          as (ys & this1 & E & G & R & N).
        exists ys, this1. split; [assumption|]. split; [assumption|].
        split; [auto|].
        intros k Hk. destruct (N k Hk) as [?|[? ?]]; auto.
      - exists [], this. split; [reflexivity|].
        split; [apply grows_refl|]. split; [discriminate|]. auto. }
    destruct Hx as (ys & this1 & E1 & G1 & R1 & N1). rewrite E1.
    assert (Hlt1 : unvisited service mode this1 < bound)
      by (pose proof (unvisited_le _ _ _ _ _ G1); lia).
    destruct (IH this1 (fun y Hy => Hin y (or_intror Hy)) Hlt1)
      as (zs & this2 & E2 & G2 & R2 & N2).
    rewrite E2. exists (ys ++ zs), this2. split; [reflexivity|].
    split; [eapply grows_trans; eassumption|]. split.
    + intros y [->|Hy] On Hr; [|auto].
      destruct G2 as (_ & _ & _ & M2 & _). apply M2. auto.
    + intros k Hk. destruct (N2 k Hk) as [Hk1|[(y & Hy & On & Ry) Hc]].
      * destruct (N1 k Hk1) as [?|(On & Rx & Hc)]; [auto|].
        right. split; [exists x; simpl; auto|].
        eapply closed_grows; eassumption.
      * right. split; [exists y; simpl; auto | assumption].
Qed.
End Loop.

Section Traverse.
Variable sameName : string -> string -> bool.
Variable service : Service.t.
Variable mode : Mode.

(** One call of [traverse], when the calls below it return: it enters a
    name that is referred to and unvisited, which leaves one name less
    unvisited, or a name given from outside, with fuel to spare. *)
Lemma traverse_step fuel :
  returnsAt sameName service mode fuel ->
  forall name this,
    unvisited service mode this < fuel
    \/ (In name (references service)
        /\ unvisited service mode this < S fuel) ->
    exists ys this',
      traverse sameName (S fuel) service name mode this = Some (ys, this')
      /\ traversed sameName service mode name this this'.
Proof.
  intros IH name this Hlt.
  rewrite traverse_S.
  destruct (visited mode this name) eqn:V.
  { exists [], this. split; [reflexivity|]. split; [apply grows_refl|]. auto. }
  assert (Hdec : forall this0,
             grows sameName service mode this this0 ->
             visited mode this0 name = true ->
             unvisited service mode this0 < fuel).
  { intros this0 G0 V0. destruct Hlt as [Hlt|[Hin Hlt]].
    - pose proof (unvisited_le _ _ _ _ _ G0). lia.
    - pose proof (unvisited_lt _ _ _ _ _ _ G0 Hin V V0). lia. }
  destruct (getTypeByName sameName service name) as [type|] eqn:T.
  { (* a Type *)
    pose proof (grows_setType sameName service mode name type this T) as G0.
    assert (R0 : Graph.resolves sameName service name = true)
      by (unfold Graph.resolves; rewrite T; reflexivity).
    assert (V0 : visited mode (setType mode name type this) name = true)
      by (apply visited_setType; auto).
    destruct (forEach_returns sameName service mode fuel fuel
                (fun n => In n (references service)) IH
                (fun prop => negb (TypedValue.isPrimitive (PropertyDecl.typed prop)))
                (fun prop => TypedValue.typeName (PropertyDecl.typed prop))
                _ (fun _ _ => eq_refl) (TypeDecl.properties type) _
                (fun prop Hp _ => property_references _ _ _ _ _ T Hp)
                (Hdec _ G0 V0))
      as (ys & this' & E & G & R & N).
    rewrite E. exists (type :: ys), this'. split; [reflexivity|].
    assert (Hc : closed sameName service mode this' name).
    { intros m Hm Hr. unfold Graph.successors in Hm. rewrite T in Hm.
      apply in_map_iff in Hm. destruct Hm as (prop & <- & Hp).
      apply filter_In in Hp. destruct Hp as [Hp On]. apply R; assumption. }
    split; [eapply grows_trans; eassumption|]. split.
    - intros _. destruct G as (_ & _ & _ & M & _). apply M. assumption.
    - intros k Hk. destruct (N k Hk) as [Hk0|[(prop & Hp & On & Rk) Hck]].
      + apply visited_setType in Hk0. destruct Hk0 as [->|?]; [|auto].
        right. split; [constructor | assumption].
      + right. split; [|assumption].
        eapply reach_edge; [|exact Rk].
        unfold Graph.successors. rewrite T. apply in_map_iff.
        exists prop. split; [reflexivity|]. apply filter_In. auto. }
  destruct (getUnionByName sameName service name) as [union|] eqn:U.
  { (* a Union *)
    pose proof (grows_setUnion sameName service mode name union this T U) as G0.
    assert (R0 : Graph.resolves sameName service name = true)
      by (unfold Graph.resolves; rewrite T, U; reflexivity).
    assert (V0 : visited mode (setUnion mode name union this) name = true)
      by (apply visited_setUnion; auto).
    destruct (forEach_returns sameName service mode fuel fuel
                (fun n => In n (references service)) IH
                (fun _ => true) TypedValue.typeName
                _ (fun _ _ => eq_refl) (Union.members union) _
                (fun member Hm _ => member_references _ _ _ _ _ U Hm)
                (Hdec _ G0 V0))
      as (ys & this' & E & G & R & N).
    rewrite E. exists ys, this'. split; [reflexivity|].
    assert (Hc : closed sameName service mode this' name).
    { intros m Hm Hr. unfold Graph.successors in Hm. rewrite T, U in Hm.
      apply in_map_iff in Hm. destruct Hm as (member & <- & Hp).
      apply R; auto. }
    split; [eapply grows_trans; eassumption|]. split.
    - intros _. destruct G as (_ & _ & _ & M & _). apply M. assumption.
    - intros k Hk. destruct (N k Hk) as [Hk0|[(member & Hp & On & Rk) Hck]].
      + apply visited_setUnion in Hk0. destruct Hk0 as [->|?]; [|auto].
        right. split; [constructor | assumption].
      + right. split; [|assumption].
        eapply reach_edge; [|exact Rk].
        unfold Graph.successors. rewrite T, U. apply in_map. assumption. }
  destruct (getEnumByName sameName service name) as [e|] eqn:E.
  { (* an Enum *)
    exists [], (setEnum mode name e this). split; [reflexivity|].
    split; [apply grows_setEnum; assumption|]. split.
    - intros _. apply visited_setEnum. auto.
    - intros k Hk. apply visited_setEnum in Hk. destruct Hk as [->|?]; [|auto].
      right. split; [constructor|].
      intros m Hm. unfold Graph.successors in Hm. rewrite T, U in Hm.
      contradiction. }
  (* a dangling name *)
  exists [], this. split; [reflexivity|]. split; [apply grows_refl|].
  split; [|auto].
  unfold Graph.resolves. rewrite T, U, E. discriminate.
Qed.

Lemma traverse_returns fuel : returnsAt sameName service mode fuel.
Proof.
  induction fuel as [|fuel IH]; intros name this Hin Hlt; [lia|].
  apply traverse_step; auto.
Qed.

(** From whatever name, [traverse] returns with one more unit of fuel than
    names are unvisited. *)
Lemma traverse_returns_any fuel name this :
  unvisited service mode this < fuel ->
  exists ys this',
    traverse sameName (S fuel) service name mode this = Some (ys, this')
    /\ traversed sameName service mode name this this'.
Proof.
  intros Hlt. apply traverse_step; [apply traverse_returns | auto].
Qed.
End Traverse.
End TraverseSpec.

(** ** [init] and the resolved instance *)

Module InitSpec.
Import InterfaceInfo Invariant TraverseFacts TraverseSpec.

Section Fuel.
Variable sameName : string -> string -> bool.
Variable service : Service.t.
Variable mode : Mode.

Lemma forEach_mono {A : Type} (body body' : A -> t -> Gen) xs :
  (forall x this r, In x xs -> body x this = Some r -> body' x this = Some r) ->
  forall this r, forEach body xs this = Some r -> forEach body' xs this = Some r.
Proof.
  induction xs as [|x xs IH]; intros Hb this r; simpl; [auto|].
  destruct (body x this) as [[ys this1]|] eqn:E; [|discriminate].
  rewrite (Hb x this _ (or_introl eq_refl) E).
  destruct (forEach body xs this1) as [[zs this2]|] eqn:E'; [|discriminate].
  rewrite (IH (fun y th r' Hy => Hb y th r' (or_intror Hy)) _ _ E').
  auto.
Qed.

(** More fuel does not change what [traverse] returns. *)
Lemma traverse_fuel fuel : forall fuel' name this r,
    fuel <= fuel' ->
    traverse sameName fuel service name mode this = Some r ->
    traverse sameName fuel' service name mode this = Some r.
Proof.
  induction fuel as [|fuel IH]; intros fuel' name this r Hle; [discriminate|].
  destruct fuel' as [|fuel']; [lia|].
  assert (Hle' : fuel <= fuel') by lia.
  rewrite !traverse_S.
  destruct (visited mode this name); [auto|].
  destruct (getTypeByName sameName service name) as [type|].
  - match goal with
    | |- match forEach ?b ?xs ?s with _ => _ end = _ ->
         match forEach ?b' _ _ with _ => _ end = _ =>
        destruct (forEach b xs s) as [[ys this']|] eqn:E; [|discriminate];
        assert (E' : forEach b' xs s = Some (ys, this'))
    end.
    { eapply forEach_mono; [|exact E]. intros x th r' _. simpl.
      destruct (negb (TypedValue.isPrimitive (PropertyDecl.typed x))); [|auto].
      apply IH. assumption. }
    rewrite E'. auto.
  - destruct (getUnionByName sameName service name) as [union|]; [|auto].
    apply forEach_mono. intros x th r' _. apply IH. assumption.
Qed.
End Fuel.

Section Frame.
Variable sameName : string -> string -> bool.
Variable service : Service.t.
Variable int : Interface.t.

Lemma visited_other mode this this' k :
  grows sameName service mode this this' ->
  visited (other mode) this' k = visited (other mode) this k.
Proof.
  intros (T & U & E & _). unfold visited. rewrite T, U, E. reflexivity.
Qed.

Lemma wellKeyed_other mode this this' :
  grows sameName service mode this this' ->
  wellKeyed sameName service (other mode) this -> wellKeyed sameName service (other mode) this'.
Proof.
  intros (T & U & E & _). unfold wellKeyed. rewrite T, U, E. auto.
Qed.

Lemma sound_other mode this this' :
  grows sameName service mode this this' ->
  sound sameName service (other mode) int this -> sound sameName service (other mode) int this'.
Proof.
  intros G Hs k Hk. rewrite (visited_other _ _ _ _ G) in Hk.
  destruct (Hs k Hk) as [Hr Hc]. split; [assumption|].
  intros m Hm Hres. rewrite (visited_other _ _ _ _ G). auto.
Qed.

Lemma sound_grows mode this this' :
  grows sameName service mode this this' ->
  (forall k, visited mode this' k = true ->
             visited mode this k = true
             \/ ((exists root, In root (Graph.roots mode int)
                               /\ Graph.reach sameName service root k)
                 /\ closed sameName service mode this' k)) ->
  sound sameName service mode int this -> sound sameName service mode int this'.
Proof.
  intros G N Hs k Hk. destruct (N k Hk) as [Hold|Hnew]; [|assumption].
  destruct (Hs k Hold) as [Hr Hc]. split; [assumption|].
  eapply closed_grows; eassumption.
Qed.

Lemma resolved_grows mode this this' :
  grows sameName service mode this this' ->
  (forall k, visited mode this' k = true ->
             visited mode this k = true
             \/ ((exists root, In root (Graph.roots mode int)
                               /\ Graph.reach sameName service root k)
                 /\ closed sameName service mode this' k)) ->
  resolved sameName service int this -> resolved sameName service int this'.
Proof.
  intros G N (WI & WO & SI & SO).
  pose proof (wellKeyed_other _ _ _ G) as WX.
  pose proof (sound_other _ _ _ G) as SX.
  pose proof (sound_grows _ _ _ G N) as SG.
  destruct G as (_ & _ & _ & _ & WG).
  destruct mode; simpl in *; unfold resolved; auto.
Qed.

Lemma grows_keeps mode this this' :
  grows sameName service mode this this' -> keeps this this'.
Proof.
  intros G m k Hk.
  pose proof (visited_other _ _ _ k G) as X.
  destruct G as (_ & _ & _ & M & _).
  destruct mode, m; simpl in *; try (apply M; assumption); congruence.
Qed.

Lemma keeps_trans a b c : keeps a b -> keeps b c -> keeps a c.
Proof. unfold keeps. auto. Qed.

Lemma roots_input method param :
  In method (Interface.methods int) ->
  In param (Method.parameters method) ->
  In (TypedValue.typeName (ParameterDecl.typed param))
     (Graph.roots input int).
Proof.
  intros Hm Hp. simpl. unfold Graph.inputRoots. apply in_flat_map.
  exists method. split; [assumption|].
  apply in_map_iff. exists param. auto.
Qed.

Lemma roots_output method returnType :
  In method (Interface.methods int) ->
  Method.returnType method = Some returnType ->
  TypedValue.isPrimitive returnType = false ->
  In (TypedValue.typeName returnType) (Graph.roots output int).
Proof.
  intros Hm Hr Hp. simpl. unfold Graph.outputRoots. apply in_flat_map.
  exists method. split; [assumption|]. rewrite Hr, Hp. simpl. auto.
Qed.

Variable fuel : nat.
Hypothesis Hfuel : depth service <= fuel.

Lemma initMethod_returns method this :
  In method (Interface.methods int) ->
  resolved sameName service int this ->
  exists this',
    initMethod sameName fuel service method this = Some this'
    /\ resolved sameName service int this'
    /\ keeps this this'
    /\ (forall param, In param (Method.parameters method) ->
          Graph.resolves sameName service
            (TypedValue.typeName (ParameterDecl.typed param)) = true ->
          visited input this'
            (TypedValue.typeName (ParameterDecl.typed param)) = true)
    /\ (forall returnType,
          Method.returnType method = Some returnType ->
          TypedValue.isPrimitive returnType = false ->
          Graph.resolves sameName service (TypedValue.typeName returnType) = true ->
          visited output this' (TypedValue.typeName returnType) = true).
Proof.
  intros Hm Hres. unfold initMethod.
  assert (Hb : exists bound,
             fuel = S bound
             /\ forall mode th, unvisited service mode th < bound).
  { exists (pred fuel). unfold depth in Hfuel. split; [lia|].
    intros mode th. pose proof (unvisited_depth service mode th) as H.
    unfold depth in H. lia. }
  destruct Hb as (bound & -> & Hlt).
  destruct (forEach_returns sameName service input (S bound) bound
              (fun _ => True)
              (fun name th _ => traverse_returns_any sameName service input
                                  bound name th)
              (fun _ => true)
              (fun param => TypedValue.typeName (ParameterDecl.typed param))
              _ (fun _ _ => eq_refl) (Method.parameters method) this
              (fun _ _ _ => I) (Hlt input this))
    as (ys & this1 & E & G & R & N).
  rewrite E.
  assert (Hres1 : resolved sameName service int this1).
  { apply (resolved_grows input this this1 G); [|assumption].
    intros k Hk. destruct (N k Hk) as [?|[(param & Hp & _ & Hr) Hc]]; [auto|].
    right. split; [|assumption].
    exists (TypedValue.typeName (ParameterDecl.typed param)).
    split; [eapply roots_input; eassumption | assumption]. }
  pose proof (grows_keeps _ _ _ G) as K1.
  destruct (Method.returnType method) as [returnType|] eqn:Ret.
  2:{ exists this1. split; [reflexivity|]. split; [assumption|].
      split; [assumption|]. split; [auto | discriminate]. }
  destruct (TypedValue.isPrimitive returnType) eqn:Prim; cbn [negb].
  { exists this1. split; [reflexivity|]. split; [assumption|].
    split; [assumption|]. split; [auto|].
    intros r Hr. inversion Hr; subst. congruence. }
  destruct (traverse_returns_any sameName service output bound
              (TypedValue.typeName returnType) this1 (Hlt output this1))
    as (zs & this2 & E2 & G2 & R2 & N2).
  rewrite E2. cbn [option_map snd]. exists this2.
  pose proof (grows_keeps _ _ _ G2) as K2.
  split; [reflexivity|]. split.
  { apply (resolved_grows output this1 this2 G2); [|assumption].
    intros k Hk. destruct (N2 k Hk) as [?|[Hr Hc]]; [auto|].
    right. split; [|assumption].
    exists (TypedValue.typeName returnType).
    split; [eapply roots_output; eassumption | assumption]. }
  split; [eapply keeps_trans; eassumption|]. split.
  - intros param Hp Hr. apply (K2 input). auto.
  - intros r Hr _ Hrs. inversion Hr; subst. auto.
Qed.

Lemma initMethods_returns methods : forall this,
    incl methods (Interface.methods int) ->
    resolved sameName service int this ->
    exists this',
      initMethods sameName fuel service methods this = Some this'
      /\ resolved sameName service int this'
      /\ keeps this this'
      /\ (forall method param,
            In method methods -> In param (Method.parameters method) ->
            Graph.resolves sameName service
              (TypedValue.typeName (ParameterDecl.typed param)) = true ->
            visited input this'
              (TypedValue.typeName (ParameterDecl.typed param)) = true)
      /\ (forall method returnType,
            In method methods ->
            Method.returnType method = Some returnType ->
            TypedValue.isPrimitive returnType = false ->
            Graph.resolves sameName service (TypedValue.typeName returnType) = true ->
            visited output this' (TypedValue.typeName returnType) = true).
Proof.
  induction methods as [|method methods IH]; intros this Hincl Hres; simpl.
  - exists this. split; [reflexivity|]. split; [assumption|].
    split; [intros ? ?; auto|]. split; intros ? ? [].
  - destruct (initMethod_returns method this
                (Hincl _ (or_introl eq_refl)) Hres)
      as (this1 & E1 & Hres1 & K1 & P1 & O1).
    rewrite E1.
    destruct (IH this1 (fun m Hm => Hincl m (or_intror Hm)) Hres1)
      as (this2 & E2 & Hres2 & K2 & P2 & O2).
    exists this2. split; [assumption|]. split; [assumption|].
    split; [eapply keeps_trans; eassumption|]. split.
    + intros m param [<-|Hm] Hp Hr; [|eauto].
      apply (K2 input). auto.
    + intros m r [<-|Hm] Hr Hp Hrs; [|eauto].
      apply (K2 output). auto.
Qed.
End Frame.

Lemma resolved_fresh sameName service int : resolved sameName service int fresh.
Proof.
  assert (W : forall mode, wellKeyed sameName service mode fresh).
  { intros mode. unfold wellKeyed.
    destruct mode; simpl; repeat apply conj;
      try (intros ? ? []); constructor. }
  assert (S : forall mode, sound sameName service mode int fresh).
  { intros mode k Hk. destruct mode; discriminate. }
  unfold resolved. auto.
Qed.

(** [init] returns at every fuel from [depth service] on, with the same
    instance, which satisfies the invariant and has visited every root
    that resolves. *)
Lemma new_returns sameName service int :
  exists info,
    new sameName service int = Some info
    /\ (forall fuel, depth service <= fuel ->
                     init sameName fuel service int fresh = Some info)
    /\ resolved sameName service int info
    /\ (forall mode root, In root (Graph.roots mode int) ->
                          Graph.resolves sameName service root = true ->
                          visited mode info root = true).
Proof.
  destruct (initMethods_returns sameName service int (depth service) (le_n _)
              (Interface.methods int) fresh (incl_refl _)
              (resolved_fresh sameName service int))
    as (info & E & Hres & _ & P & O).
  exists info. split; [exact E|]. split; [|split; [assumption|]].
  - intros fuel Hle.
    destruct (initMethods_returns sameName service int fuel Hle
                (Interface.methods int) fresh (incl_refl _)
                (resolved_fresh sameName service int))
      as (info' & E' & _).
    unfold init. rewrite E'. f_equal.
    revert E E'. generalize (Interface.methods int) fresh.
    intros ms. induction ms as [|m ms IH]; intros th; simpl.
    + congruence.
    + unfold initMethod.
      destruct (forEach _ (Method.parameters m) th) as [[ys th1]|] eqn:F1;
        [|discriminate].
      rewrite (forEach_mono _
                 (fun param this' =>
                    traverse sameName fuel service
                      (TypedValue.typeName (ParameterDecl.typed param))
                      input this')
                 _ (fun x s r _ => traverse_fuel sameName service input _ _ _ s r Hle)
                 _ _ F1).
      destruct (Method.returnType m) as [r|]; [|apply IH].
      destruct (negb (TypedValue.isPrimitive r)); [|apply IH].
      destruct (traverse sameName (depth service) service (TypedValue.typeName r)
                  output th1) as [[zs th2]|] eqn:F2; [|discriminate].
      rewrite (traverse_fuel sameName service output _ _ _ _ _ Hle F2). simpl.
      apply IH.
  - intros mode root Hroot Hr. destruct mode; simpl in Hroot.
    + unfold Graph.inputRoots in Hroot. apply in_flat_map in Hroot.
      destruct Hroot as (m & Hm & Hp). apply in_map_iff in Hp.
      destruct Hp as (param & <- & Hp). eauto.
    + unfold Graph.outputRoots in Hroot. apply in_flat_map in Hroot.
      destruct Hroot as (m & Hm & Hp).
      destruct (Method.returnType m) as [r|] eqn:Ret; [|contradiction].
      destruct (TypedValue.isPrimitive r) eqn:Prim; [contradiction|].
      destruct Hp as [<-|[]]. eauto.
Qed.
End InitSpec.

(** ** The closure of an interface *)

Module ClosureSpec.
Import InterfaceInfo Invariant TraverseFacts InitSpec.

Section Closure.
Variable sameName : string -> string -> bool.
Variable service : Service.t.
Variable int : Interface.t.
Variable info : t.
Hypothesis Hres : resolved sameName service int info.
Hypothesis Hroots : forall mode root,
    In root (Graph.roots mode int) ->
    Graph.resolves sameName service root = true ->
    visited mode info root = true.

Lemma resolved_mode mode :
  wellKeyed sameName service mode info /\ sound sameName service mode int info.
Proof. destruct Hres as (? & ? & ? & ?). destruct mode; auto. Qed.

Lemma names_resolve kind mode name :
  In name (Kind.names kind mode info) -> Kind.resolve sameName service name = Some kind.
Proof.
  destruct (resolved_mode mode) as [(WT & WU & WE & _) _].
  unfold Kind.resolve.
  destruct kind; simpl; unfold JsMap.keys; intros Hin;
    apply in_map_iff in Hin; destruct Hin as ([k v] & Hk & Hin);
    simpl in Hk; subst k.
  - rewrite (WT _ _ Hin). reflexivity.
  - destruct (WU _ _ Hin) as [-> ->]. reflexivity.
  - destruct (WE _ _ Hin) as (-> & -> & ->). reflexivity.
Qed.

Lemma visited_names mode name :
  visited mode info name = true <->
  exists kind, In name (Kind.names kind mode info).
Proof.
  rewrite visited_iff. split.
  - intros [H|[H|H]];
      [exists Kind.type | exists Kind.union | exists Kind.enum]; exact H.
  - intros [[] H]; simpl in H; auto.
Qed.

Lemma resolve_resolves name kind :
  Kind.resolve sameName service name = Some kind -> Graph.resolves sameName service name = true.
Proof.
  unfold Kind.resolve, Graph.resolves.
  destruct (getTypeByName sameName service name), (getUnionByName sameName service name),
    (getEnumByName sameName service name); congruence.
Qed.

Lemma visited_reachable mode name :
  visited mode info name = true <-> Graph.reachable sameName service mode int name.
Proof.
  destruct (resolved_mode mode) as [_ Hs]. split.
  - intros Hv. split; [|apply (Hs name Hv)].
    apply visited_names in Hv. destruct Hv as [kind Hk].
    eapply resolve_resolves, names_resolve, Hk.
  - intros (Hr & root & Hroot & Hreach). revert Hr.
    induction Hreach as [|name next Hreach IH Hnext]; intros Hr.
    + apply Hroots; assumption.
    + pose proof (successors_resolves _ _ _ _ Hnext) as Hn.
      destruct (Hs name (IH Hn)) as [_ Hc]. apply Hc; assumption.
Qed.

(** An instance holds a name, in a direction, under a kind, exactly when
    the entity is reachable in that direction and the name resolves to
    that kind. *)
Lemma names_iff kind mode name :
  In name (Kind.names kind mode info) <->
  Graph.reachable sameName service mode int name
  /\ Kind.resolve sameName service name = Some kind.
Proof.
  split.
  - intros Hin. split; [|eapply names_resolve; eassumption].
    apply visited_reachable, visited_names. eauto.
  - intros [Hr Hk]. apply visited_reachable, visited_names in Hr.
    destruct Hr as [kind' Hin].
    pose proof (names_resolve _ _ _ Hin) as Hk'.
    assert (kind' = kind) by congruence. subst. assumption.
Qed.


Lemma types_entry mode name type :
  Graph.reachable sameName service mode int name ->
  getTypeByName sameName service name = Some type ->
  JsMap.get (typesOf mode info) name = Some type.
Proof.
  intros Hr Ht.
  assert (Hin : In name (Kind.names Kind.type mode info)).
  { apply names_iff. split; [assumption|].
    unfold Kind.resolve. rewrite Ht. reflexivity. }
  destruct (resolved_mode mode) as [(WT & _ & _ & NT & _) _].
  simpl in Hin. unfold JsMap.keys in Hin. apply in_map_iff in Hin.
  destruct Hin as ([k v] & Hk & Hin). simpl in Hk. subst k.
  pose proof (WT _ _ Hin) as Hv.
  assert (v = type) by congruence. subst.
  apply JsMapFacts.get_In; assumption.
Qed.
End Closure.

(** With a comparison of names that is an equivalence, names that it
    does not tell apart are looked up alike. *)
Section SameName.
Variable sameName : string -> string -> bool.
Variable localeCompare : string -> string -> Z.
Hypothesis Hco : coherent sameName localeCompare.
Variable service : Service.t.




End SameName.

(** A merged view lists the entities held under the names of the two maps
    in the order of these names.  When the look-up and the order are
    coherent, that is the order of the names of the entities. *)
Section Merged.
Context {V : Type} (nameOf : V -> string) (lookup : string -> option V).
Variable sameName : string -> string -> bool.
Variable localeCompare : string -> string -> Z.
Variables a b : JsMap.t V.
Hypothesis Hc : consistent localeCompare.
Hypothesis Hco : coherent sameName localeCompare.
Hypothesis Ha : forall k v, In (k, v) a -> lookup k = Some v.
Hypothesis Hb : forall k v, In (k, v) b -> lookup k = Some v.
Hypothesis Hname : forall k v, lookup k = Some v -> sameName (nameOf v) k = true.
Hypothesis Hsame : forall k k', sameName k k' = true -> lookup k = lookup k'.

End Merged.
End ClosureSpec.

(** ** The renderer *)

Module BuilderFacts.
Import Builder.

Lemma bind_mono {A B : Type} (x x' : option A) (f f' : A -> option B) r :
  (forall a, x = Some a -> x' = Some a) ->
  (forall a b, f a = Some b -> f' a = Some b) ->
  bind x f = Some r -> bind x' f' = Some r.
Proof.
  intros Hx Hf. destruct x as [a|]; simpl; [|discriminate].
  rewrite (Hx a eq_refl). simpl. apply Hf.
Qed.

Lemma mapM_mono {A B : Type} (f g : A -> option B) (l : list A) :
  (forall x y, In x l -> f x = Some y -> g x = Some y) ->
  forall ys, mapM f l = Some ys -> mapM g l = Some ys.
Proof.
  induction l as [|x l IH]; intros H ys; simpl; [auto|].
  destruct (f x) as [y|] eqn:E; simpl; [|discriminate].
  rewrite (H x y (or_introl eq_refl) E). simpl.
  destruct (mapM f l) as [zs|] eqn:E'; simpl; [|discriminate].
  rewrite (IH (fun x' y' Hx => H x' y' (or_intror Hx)) zs eq_refl). auto.
Qed.

Lemma concatM_mono {A B : Type} (f g : A -> option (list B)) (l : list A) :
  (forall x y, In x l -> f x = Some y -> g x = Some y) ->
  forall ys, concatM f l = Some ys -> concatM g l = Some ys.
Proof.
  intros H ys. unfold concatM.
  destruct (mapM f l) as [zs|] eqn:E; simpl; [|discriminate].
  rewrite (mapM_mono f g l H zs E). auto.
Qed.

Lemma mapM_Forall2 {A B : Type} (f : A -> option B) (l : list A) ys :
  mapM f l = Some ys <-> Forall2 (fun x y => f x = Some y) l ys.
Proof.
  revert ys. induction l as [|x l IH]; intros ys; simpl.
  - split; [intros H; inversion H; constructor | intros H; inversion H; auto].
  - destruct (f x) as [y|] eqn:E; simpl.
    + destruct (mapM f l) as [zs|] eqn:E'; simpl.
      * split.
        -- intros H; inversion H; subst. constructor; [assumption|].
           apply IH. reflexivity.
        -- intros H; inversion H; subst.
           apply IH in H4. congruence.
      * split; [discriminate|]. intros H; inversion H; subst.
        apply IH in H4. discriminate.
    + split; [discriminate|]. intros H; inversion H; subst. congruence.
Qed.

Lemma returns_mapM {A B : Type} (run : nat -> A -> option B) (l : list A) :
  (forall x, In x l -> exists y, returns (fun fuel => run fuel x) y) ->
  exists ys, returns (fun fuel => mapM (run fuel) l) ys.
Proof.
  induction l as [|x l IH]; intros H.
  - exists []. exists 0. reflexivity.
  - destruct (H x (or_introl eq_refl)) as (y & n & Hy).
    destruct (IH (fun x' Hx => H x' (or_intror Hx))) as (ys & m & Hys).
    exists (y :: ys), (Nat.max n m). intros fuel Hle. simpl.
    rewrite Hy, Hys by lia. reflexivity.
Qed.

Lemma returns_concatM {A B : Type} (run : nat -> A -> option (list B)) l :
  (forall x, In x l -> exists y, returns (fun fuel => run fuel x) y) ->
  exists ys, returns (fun fuel => concatM (run fuel) l) ys.
Proof.
  intros H. destruct (returns_mapM run l H) as (ys & n & Hys).
  exists (List.concat ys), n. intros fuel Hle. unfold concatM.
  rewrite Hys by assumption. reflexivity.
Qed.

Lemma returns_members {A B : Type} (run : nat -> A -> option B)
      (Q : A -> B -> Prop) (l : list A) :
  (forall x, In x l -> exists y, returns (fun fuel => run fuel x) y /\ Q x y) ->
  exists ys,
    Forall2 (fun x y => returns (fun fuel => run fuel x) y /\ Q x y) l ys
    /\ returns (fun fuel => mapM (run fuel) l) ys.
Proof.
  induction l as [|x l IH]; intros H.
  - exists []. split; [constructor | exists 0; reflexivity].
  - destruct (H x (or_introl eq_refl)) as (y & [n Hy] & Hq).
    destruct (IH (fun x' Hx => H x' (or_intror Hx))) as (ys & F & m & Hys).
    exists (y :: ys). split.
    + constructor; [|assumption]. split; [exists n|]; assumption.
    + exists (Nat.max n m). intros fuel Hle. simpl.
      rewrite Hy, Hys by lia. reflexivity.
Qed.

Section Fuel.
Variable host : Host.t.
Variable service : Service.t.

Lemma buildLinkedTypeName_S fuel param :
  buildLinkedTypeName host service (S fuel) param =
  match getUnionByName (Host.sameName host) service (TypedValue.typeName param) with
  | Some union =>
      rendered <- mapM (buildLinkedTypeName host service fuel)
                    (Union.members union) ;;
      Some (if TypedValue.isArray param
            then "(" ^ join " | " rendered ^ ")[]"
            else join " | " rendered)
  | None => Some (linkedName host param)
  end.
Proof. reflexivity. Qed.

(** More fuel does not change what the renderer returns. *)
Lemma buildLinkedTypeName_fuel fuel : forall fuel' param s,
    fuel <= fuel' ->
    buildLinkedTypeName host service fuel param = Some s ->
    buildLinkedTypeName host service fuel' param = Some s.
Proof.
  induction fuel as [|fuel IH]; intros fuel' param s Hle; [discriminate|].
  destruct fuel' as [|fuel']; [lia|].
  rewrite !buildLinkedTypeName_S.
  destruct (getUnionByName (Host.sameName host) service (TypedValue.typeName param)) as [union|];
    [|auto].
  destruct (mapM (buildLinkedTypeName host service fuel) (Union.members union))
    as [rendered|] eqn:E; simpl; [|discriminate].
  rewrite (mapM_mono _ (buildLinkedTypeName host service fuel') _
             (fun x y _ => IH fuel' x y ltac:(lia)) _ E).
  auto.
Qed.

Lemma buildParameter_fuel fuel fuel' param lines :
  fuel <= fuel' ->
  buildParameter host service fuel param = Some lines ->
  buildParameter host service fuel' param = Some lines.
Proof.
  intros Hle. unfold buildParameter. apply bind_mono; [|auto].
  intros s. apply buildLinkedTypeName_fuel. assumption.
Qed.

Lemma buildProperty_fuel fuel fuel' prop lines :
  fuel <= fuel' ->
  buildProperty host service fuel prop = Some lines ->
  buildProperty host service fuel' prop = Some lines.
Proof.
  intros Hle. unfold buildProperty. apply bind_mono; [|auto].
  intros s. apply buildLinkedTypeName_fuel. assumption.
Qed.

Lemma buildMethodDocs_fuel fuel fuel' method lines :
  fuel <= fuel' ->
  buildMethodDocs host service fuel method = Some lines ->
  buildMethodDocs host service fuel' method = Some lines.
Proof.
  intros Hle. unfold buildMethodDocs. apply bind_mono.
  - intros params. destruct (Method.parameters method); [auto|].
    apply bind_mono; [|auto]. intros ls. apply concatM_mono.
    intros x y _. apply buildParameter_fuel. assumption.
  - intros params r. apply bind_mono; [|auto].
    intros returns. destruct (Method.returnType method); [|auto].
    apply bind_mono; [|auto]. intros s.
    apply buildLinkedTypeName_fuel. assumption.
Qed.

Lemma buildTypeDocs_fuel fuel fuel' type lines :
  fuel <= fuel' ->
  buildTypeDocs host service fuel type = Some lines ->
  buildTypeDocs host service fuel' type = Some lines.
Proof.
  intros Hle. unfold buildTypeDocs. apply bind_mono.
  - intros props. destruct (TypeDecl.properties type); [auto|].
    apply bind_mono; [|auto]. intros ls. apply concatM_mono.
    intros x y _. apply buildProperty_fuel. assumption.
  - intros props r. apply bind_mono; [|auto].
    intros mapProps. destruct (TypeDecl.mapProperties type); [|auto].
    apply bind_mono.
    + intros key. apply buildLinkedTypeName_fuel. assumption.
    + intros key r'. apply bind_mono; [|auto].
      intros value. apply buildLinkedTypeName_fuel. assumption.
Qed.

Lemma section_mono {A : Type} heading (f g : A -> option (list string)) items :
  (forall x y, In x items -> f x = Some y -> g x = Some y) ->
  forall lines, section heading f items = Some lines ->
                section heading g items = Some lines.
Proof.
  intros H lines. unfold section. destruct items as [|x xs]; [auto|].
  apply bind_mono; [|auto]. intros ls. apply concatM_mono. assumption.
Qed.

Lemma buildInterfaceDocs_fuel fuel fuel' int lines :
  fuel <= fuel' ->
  buildInterfaceDocs host service fuel int = Some lines ->
  buildInterfaceDocs host service fuel' int = Some lines.
Proof.
  intros Hle. unfold buildInterfaceDocs.
  apply bind_mono; [auto|]. intros ts r.
  apply bind_mono; [auto|]. intros es r'.
  apply bind_mono; [auto|]. intros toc r''.
  apply bind_mono.
  { intros md. apply section_mono. intros x y _.
    apply buildMethodDocs_fuel. assumption. }
  intros md r3. apply bind_mono; [|auto].
  intros td. apply section_mono. intros x y _.
  apply buildTypeDocs_fuel. assumption.
Qed.
End Fuel.


Lemma mapM_length {A B : Type} (f : A -> option B) (l : list A) ys :
  mapM f l = Some ys -> List.length ys = List.length l.
Proof.
  rewrite mapM_Forall2. induction 1; simpl; congruence.
Qed.

Lemma build_fuel (host : Host.t) (service : Service.t) fuel fuel' documents :
  fuel <= fuel' ->
  build host service fuel = Some documents ->
  build host service fuel' = Some documents.
Proof.
  intros Hle. unfold build. apply mapM_mono.
  intros int lines _. apply buildInterfaceDocs_fuel. assumption.
Qed.

(** A union that contains an array of itself is never rendered: the
    recursion of [buildLinkedTypeName] has no guard of its own. *)
Lemma recursive_union_not_rendered fuel : forall param,
    TypedValue.typeName param = "Json" ->
    buildLinkedTypeName Sample.host Sample.jsonService fuel param = None.
Proof.
  induction fuel as [|fuel IH]; intros param Hname; [reflexivity|].
  rewrite buildLinkedTypeName_S, Hname.
  change (getUnionByName (Host.sameName Sample.host) Sample.jsonService "Json")
    with (Some Sample.Json).
  cbn [Union.members Sample.Json mapM bind].
  destruct (buildLinkedTypeName Sample.host Sample.jsonService fuel
              (Sample.primitive "string")); [|reflexivity].
  rewrite (IH (Sample.arrayOf "Json") eq_refl). reflexivity.
Qed.

End BuilderFacts.

(** ** The renderer returns when the union nesting is finite *)

Module BuilderReturns.
Import Builder BuilderFacts.

Section Returns.
Variable host : Host.t.
Variable service : Service.t.

Lemma buildLinkedTypeName_leaf fuel param :
  getUnionByName (Host.sameName host) service (TypedValue.typeName param) = None ->
  buildLinkedTypeName host service (S fuel) param = Some (linkedName host param).
Proof. intros H. rewrite buildLinkedTypeName_S, H. reflexivity. Qed.

Lemma buildLinkedTypeName_returns name :
  Graph.finiteUnion (Host.sameName host) service name ->
  forall param, TypedValue.typeName param = name ->
    exists s, returns (fun fuel => buildLinkedTypeName host service fuel param) s.
Proof.
  induction 1 as [name Hnone | name union Hsome Hfin IH]; intros param <-.
  - exists (linkedName host param), 1. intros [|fuel] Hle; [lia|].
    apply buildLinkedTypeName_leaf. assumption.
  - destruct (returns_mapM (buildLinkedTypeName host service)
                (Union.members union)
                (fun member Hin => IH member Hin member eq_refl))
      as (rendered & n & Hn).
    eexists. exists (S n). intros [|fuel] Hle; [lia|].
    rewrite buildLinkedTypeName_S, Hsome, Hn by lia. reflexivity.
Qed.

Hypothesis Hfinite : finiteUnions (Host.sameName host) service.

Lemma linked_returns param :
  exists s, returns (fun fuel => buildLinkedTypeName host service fuel param) s.
Proof. eapply buildLinkedTypeName_returns; [apply Hfinite | reflexivity]. Qed.

Lemma buildParameter_returns param :
  exists lines, returns (fun fuel => buildParameter host service fuel param) lines.
Proof.
  destruct (linked_returns (ParameterDecl.typed param)) as (s & n & Hs).
  eexists. exists n. intros fuel Hle. unfold buildParameter.
  rewrite Hs by assumption. reflexivity.
Qed.

Lemma buildProperty_returns prop :
  exists lines, returns (fun fuel => buildProperty host service fuel prop) lines.
Proof.
  destruct (linked_returns (PropertyDecl.typed prop)) as (s & n & Hs).
  eexists. exists n. intros fuel Hle. unfold buildProperty.
  rewrite Hs by assumption. reflexivity.
Qed.

Lemma buildMethodDocs_returns method :
  exists lines, returns (fun fuel => buildMethodDocs host service fuel method) lines.
Proof.
  destruct (returns_concatM (buildParameter host service)
              (sortParameters host (Method.parameters method))
              (fun x _ => buildParameter_returns x)) as (ps & n1 & H1).
  unfold buildMethodDocs.
  destruct (Method.returnType method) as [r|].
  - destruct (linked_returns r) as (s & n2 & H2).
    destruct (Method.parameters method) as [|p ps'];
      eexists; exists (Nat.max n1 n2); intros fuel Hle;
      rewrite ?H1, H2 by lia; reflexivity.
  - destruct (Method.parameters method) as [|p ps'];
      eexists; exists n1; intros fuel Hle;
      rewrite ?H1 by lia; reflexivity.
Qed.

Lemma buildTypeDocs_returns type :
  exists lines, returns (fun fuel => buildTypeDocs host service fuel type) lines.
Proof.
  destruct (returns_concatM (buildProperty host service)
              (TypeDecl.properties type)
              (fun x _ => buildProperty_returns x)) as (ps & n1 & H1).
  unfold buildTypeDocs.
  destruct (TypeDecl.mapProperties type) as [mp|].
  - destruct (linked_returns (MapProperties.key mp)) as (k & n2 & H2).
    destruct (linked_returns (MapProperties.value mp)) as (v & n3 & H3).
    destruct (TypeDecl.properties type) as [|p ps'];
      eexists; exists (Nat.max n1 (Nat.max n2 n3)); intros fuel Hle;
      rewrite ?H1, H2, H3 by lia; reflexivity.
  - destruct (TypeDecl.properties type) as [|p ps'];
      eexists; exists n1; intros fuel Hle;
      rewrite ?H1 by lia; reflexivity.
Qed.

Lemma section_returns {A : Type} heading (run : nat -> A -> option (list string))
      items :
  (forall x, exists y, returns (fun fuel => run fuel x) y) ->
  exists lines, returns (fun fuel => section heading (run fuel) items) lines.
Proof.
  intros H.
  destruct (returns_concatM run items (fun x _ => H x)) as (ls & n & Hn).
  unfold section. destruct items as [|x xs].
  - exists [], 0. reflexivity.
  - eexists. exists n. intros fuel Hle. rewrite Hn by assumption. reflexivity.
Qed.

Lemma types_returns int : exists ts, types host service int = Some ts.
Proof.
  destruct (InitSpec.new_returns (Host.sameName host) service int) as (info & E & _).
  unfold types. rewrite E. simpl. eauto.
Qed.

Lemma enums_returns int : exists es, enums host service int = Some es.
Proof.
  destruct (InitSpec.new_returns (Host.sameName host) service int) as (info & E & _).
  unfold enums. rewrite E. simpl. eauto.
Qed.

Lemma buildToc_returns int : exists toc, buildToc host service int = Some toc.
Proof.
  destruct (types_returns int) as (ts & T), (enums_returns int) as (es & E).
  unfold buildToc. rewrite T, E. simpl. eauto.
Qed.

Lemma buildInterfaceDocs_returns int :
  exists lines,
    returns (fun fuel => buildInterfaceDocs host service fuel int) lines.
Proof.
  destruct (types_returns int) as (ts & T), (enums_returns int) as (es & E).
  destruct (buildToc_returns int) as (toc & C).
  destruct (section_returns "## Methods" (buildMethodDocs host service)
              (methods host int) buildMethodDocs_returns) as (md & n1 & H1).
  destruct (section_returns "## Types" (buildTypeDocs host service)
              ts buildTypeDocs_returns) as (td & n2 & H2).
  destruct (section_returns "## Enums"
              (fun _ e => Some (buildEnumDocs host e)) es
              (fun e => ex_intro _ _ (ex_intro _ 0 (fun _ _ => eq_refl))))
    as (ed & n3 & H3).
  eexists. exists (Nat.max n1 n2). intros fuel Hle. unfold buildInterfaceDocs.
  rewrite T, E, C. simpl. rewrite H1, H2 by lia. simpl.
  rewrite (H3 n3 (le_n _)). simpl. reflexivity.
Qed.

Lemma build_returns :
  exists documents, returns (build host service) documents.
Proof.
  apply (returns_mapM (buildInterfaceDocs host service)).
  intros int _. apply buildInterfaceDocs_returns.
Qed.
End Returns.
End BuilderReturns.

(** ** Names from which [traverse] returns at once *)

Module Settled.
Import InterfaceInfo.

Section Settled.
Variable sameName : string -> string -> bool.
Variable service : Service.t.

(** From a name that is visited already, or that resolves to nothing,
    [traverse] returns at once and leaves the instance as it is. *)
Lemma traverse_settled fuel name mode this :
  (Graph.resolves sameName service name = true -> visited mode this name = true) ->
  traverse sameName (S fuel) service name mode this = Some ([], this).
Proof.
  intros H. rewrite TraverseSpec.traverse_S.
  destruct (visited mode this name) eqn:V; [reflexivity|].
  unfold Graph.resolves in H.
  destruct (getTypeByName sameName service name); [discriminate (H eq_refl)|].
  destruct (getUnionByName sameName service name); [discriminate (H eq_refl)|].
  destruct (getEnumByName sameName service name); [discriminate (H eq_refl)|].
  reflexivity.
Qed.

Lemma traverse_dangling fuel name mode this :
  Graph.resolves sameName service name = false ->
  traverse sameName (S fuel) service name mode this = Some ([], this).
Proof. intros H. apply traverse_settled. congruence. Qed.

End Settled.
End Settled.

(** ** Union references *)

Module UnionSpec.
(** A reference whose name resolves to a Union, with finite nesting, is
    rendered as the renderings of the members of the union, in their order,
    joined with a bar between two spaces; nothing else is added when the
    reference is not an array, so the union itself carries no link; when the
    reference is an array the joined text is put in parentheses and followed
    by one [[]].  A member that is not itself a union is rendered by
    [linkedName], with a link of its own. *)
Lemma union_members_joined
        (host : Host.t) (service : Service.t)
        (param : TypedValue.t) (union : Union.t) :
  getUnionByName (Host.sameName host) service (TypedValue.typeName param) = Some union ->
  Graph.finiteUnion (Host.sameName host) service (TypedValue.typeName param) ->
  exists rendered,
    Forall2
      (fun member s =>
         returns (fun fuel => Builder.buildLinkedTypeName host service fuel member) s
         /\ (getUnionByName (Host.sameName host) service (TypedValue.typeName member) = None ->
             s = Builder.linkedName host member))
      (Union.members union) rendered
    /\ returns (fun fuel => Builder.buildLinkedTypeName host service fuel param)
         (if TypedValue.isArray param
          then "(" ^ join " | " rendered ^ ")[]"
          else join " | " rendered).
Proof.
  intros Hu Hfin.
  destruct Hfin as [Hnone | union' Hsome Hmembers]; [congruence|].
  assert (union' = union) by congruence. subst union'.
  destruct (BuilderFacts.returns_members
              (Builder.buildLinkedTypeName host service)
              (fun member s =>
                 getUnionByName (Host.sameName host) service (TypedValue.typeName member) = None ->
                 s = Builder.linkedName host member)
              (Union.members union)) as (rendered & F & n & Hn).
  { intros member Hin.
    destruct (BuilderReturns.buildLinkedTypeName_returns host service _
                (Hmembers member Hin) member eq_refl) as (s & m & Hs).
    exists s. split; [exists m; assumption|].
    intros Hleaf.
    pose proof (Hs (S m) (le_S _ _ (le_n _))) as E.
    rewrite BuilderReturns.buildLinkedTypeName_leaf in E by assumption.
    congruence. }
  exists rendered. split; [assumption|].
  exists (S n). intros [|fuel] Hle; [lia|].
  rewrite BuilderFacts.buildLinkedTypeName_S, Hu, Hn by lia. reflexivity.
Qed.

(** A parameter typed as the union of [Cat] and [Dog], and an array of that
    union. *)
Lemma union_of_cat_and_dog :
  returns (fun fuel =>
             Builder.buildLinkedTypeName Sample.host Sample.petService fuel
               (Sample.ref "Pet"))
    "[&lt;Cat&gt;](#cat) | [&lt;Dog&gt;](#dog)"
  /\ returns (fun fuel =>
                Builder.buildLinkedTypeName Sample.host Sample.petService fuel
                  (Sample.arrayOf "Pet"))
       "([&lt;Cat&gt;](#cat) | [&lt;Dog&gt;](#dog))[]".
Proof.
  assert (Hfin : Graph.finiteUnion Sample.sameName Sample.petService "Pet").
  { apply Graph.finite_union with (union := Sample.Pet); [reflexivity|].
    intros member [<-|[<-|[]]]; apply Graph.finite_leaf; reflexivity. }
  assert (Hrendered : forall rendered,
             Forall2
               (fun member s =>
                  returns (fun fuel =>
                             Builder.buildLinkedTypeName Sample.host
                               Sample.petService fuel member) s
                  /\ (getUnionByName Sample.sameName Sample.petService
                        (TypedValue.typeName member) = None ->
                      s = Builder.linkedName Sample.host member))
               (Union.members Sample.Pet) rendered ->
             rendered = ["[&lt;Cat&gt;](#cat)"; "[&lt;Dog&gt;](#dog)"]).
  { intros rendered F.
    inversion F as [|? c ? cs [_ Hc] F']; subst.
    inversion F' as [|? d ? ds [_ Hd] F'']; subst.
    inversion F''; subst.
    rewrite (Hc eq_refl), (Hd eq_refl). reflexivity. }
  split.
  - destruct (union_members_joined Sample.host Sample.petService
                (Sample.ref "Pet") Sample.Pet eq_refl Hfin)
      as (rendered & F & R).
    rewrite (Hrendered rendered F) in R. exact R.
  - destruct (union_members_joined Sample.host Sample.petService
                (Sample.arrayOf "Pet") Sample.Pet eq_refl Hfin)
      as (rendered & F & R).
    rewrite (Hrendered rendered F) in R. exact R.
Qed.
End UnionSpec.

(** * The claims *)

Module Claims.
Import InterfaceInfo.

(** C1 at a Type that refers to itself in another spelling.  The
    traversal returns for every service and interface, whatever the
    look-up: [new InterfaceInfo] yields an instance at the fuel
    [depth service] and the same one at every larger fuel.  When the
    property [next] of [Node] has its type written [Node], the input map
    holds [Node] once.  When that type is written [node], the look-up,
    which does not tell the two spellings apart, answers [node] with the
    Type [Node]; the guards of [traverse] compare the names letter by
    letter, find no entry under [node], and the Type is entered a second
    time.  The traversal returns, but the input map holds the Type twice,
    under [Node] and under [node]; [inputTypes] and [types] list it twice,
    and the document has its entry in the table of contents and its
    section twice. *)
Theorem C1_self_reference_in_another_spelling_is_held_twice :
  (forall sameName service int,
      exists info,
        new sameName service int = Some info
        /\ forall fuel, depth service <= fuel ->
                        init sameName fuel service int fresh = Some info)
  /\ (exists info,
      new Sample.sameName Sample.nodeService Sample.nodeInterface = Some info
      /\ _inputTypes info = [("Node", Sample.Node)]
      /\ inputTypes Sample.localeCompare info = [Sample.Node])
  /\ getTypeByName Sample.sameName Sample.looseService "node"
     = Some Sample.LooseNode
  /\ traverse Sample.sameName 3 Sample.looseService "Node" input fresh
     = Some ([Sample.LooseNode; Sample.LooseNode],
             mk [] []
                [("Node", Sample.LooseNode); ("node", Sample.LooseNode)]
                [] [] [])
  /\ exists info,
      new Sample.sameName Sample.looseService Sample.looseInterface = Some info
      /\ _inputTypes info
         = [("Node", Sample.LooseNode); ("node", Sample.LooseNode)]
      /\ inputTypes Sample.localeCompare info
         = [Sample.LooseNode; Sample.LooseNode]
      /\ types Sample.localeCompare info
         = [Sample.LooseNode; Sample.LooseNode]
      /\ Builder.buildInterfaceDocs Sample.host Sample.looseService 1
           Sample.looseInterface
         = Some ["<!--"; "This file was generated"; "--->"; EmptyString;
                 "# Nodes"; EmptyString;
                 "- Methods"; "  - [visit](#visit)";
                 "- Types"; "  - [Node](#node)"; "  - [Node](#node)";
                 EmptyString;
                 "## Methods"; EmptyString; "### visit"; EmptyString;
                 "`visit({node})`"; EmptyString;
                 "- `node` [&lt;Node&gt;](#node)"; EmptyString;
                 "## Types"; EmptyString;
                 "### Node"; EmptyString; "`Node`"; EmptyString;
                 "- `next` [&lt;Node&gt;](#node) (optional)"; EmptyString;
                 "### Node"; EmptyString; "`Node`"; EmptyString;
                 "- `next` [&lt;Node&gt;](#node) (optional)"; EmptyString].
Proof.
  split.
  { intros sameName service int.
    destruct (InitSpec.new_returns sameName service int) as (info & E & F & _).
    exists info. auto. }
  split; [eexists; repeat split; reflexivity|].
  split; [reflexivity|]. split; [reflexivity|].
  eexists. split; [reflexivity|]. repeat split; reflexivity.
Qed.

(** C2 at a Type that both directions reach, in two spellings:
    [copy(source: Sheet): sheet].  The input map holds the Type [Sheet]
    under [Sheet], the output map holds the same Type under [sheet], and the
    merged view, which takes one entity for each name of the two maps,
    lists the Type twice; so do the renderer's closure types. *)
Theorem C2_type_of_both_directions_is_merged_twice :
  exists info,
    new Sample.sameName Sample.copyService Sample.copyInterface = Some info
    /\ _inputTypes info = [("Sheet", Sample.Sheet)]
    /\ _outputTypes info = [("sheet", Sample.Sheet)]
    /\ inputTypes Sample.localeCompare info = [Sample.Sheet]
    /\ outputTypes Sample.localeCompare info = [Sample.Sheet]
    /\ types Sample.localeCompare info = [Sample.Sheet; Sample.Sheet]
    /\ Builder.types Sample.host Sample.copyService Sample.copyInterface
       = Some [Sample.Sheet; Sample.Sheet].
Proof.
  eexists. split; [reflexivity|]. repeat split; reflexivity.
Qed.

(** C3, as the code has it.  In the instance resolved for an interface, a
    name is held under a kind, in a direction, exactly when it is reachable
    in that direction and [Kind.resolve] gives the name that kind: a Type
    when the look-up of Types answers, else a Union when the look-up of
    Unions answers, else an Enum.  The Type entry wins over the other two,
    and a name that is both a Union and an Enum is held as the Union. *)
Theorem C3_type_then_union_then_enum
        (sameName : string -> string -> bool)
        (service : Service.t) (int : Interface.t) :
  exists info,
    new sameName service int = Some info
    /\ forall kind mode name,
        In name (Kind.names kind mode info) <->
        Graph.reachable sameName service mode int name
        /\ Kind.resolve sameName service name = Some kind.
Proof.
  destruct (InitSpec.new_returns sameName service int)
    as (info & E & F & Hres & Hroots).
  exists info. split; [assumption|].
  apply (ClosureSpec.names_iff sameName service int info Hres Hroots).
Qed.

Lemma C3_witness :
  exists info,
    new Sample.sameName Sample.shadeService Sample.shadeInterface = Some info
    /\ In "Shade" (Kind.names Kind.union input info)
    /\ ~ In "Shade" (Kind.names Kind.enum input info).
Proof.
  destruct (C3_type_then_union_then_enum Sample.sameName
              Sample.shadeService Sample.shadeInterface) as (info & E & H).
  exists info. split; [exact E|]. split.
  - apply H. split; [|reflexivity].
    split; [reflexivity|].
    exists "Shade". split; [simpl; auto | constructor].
  - intros Hin. apply H in Hin. destruct Hin as [_ Hk]. discriminate.
Defined.

(** C3 as stated fails: [Shade] names an Enum and a Union, the stated
    priority makes it the Enum, and the resolver holds it as a Union and
    not as an Enum. *)
Lemma C3_counterexample :
  exists info,
    new Sample.sameName Sample.shadeService Sample.shadeInterface = Some info
    /\ getTypeByName Sample.sameName Sample.shadeService "Shade" = None
    /\ getEnumByName Sample.sameName Sample.shadeService "Shade"
       = Some Sample.shadeEnum
    /\ getUnionByName Sample.sameName Sample.shadeService "Shade"
       = Some Sample.shadeUnion
    /\ Kind.resolve_as_specified Sample.sameName Sample.shadeService "Shade"
       = Some Kind.enum
    /\ JsMap.has (_inputEnums info) "Shade" = false
    /\ JsMap.get (_inputUnions info) "Shade" = Some Sample.shadeUnion
    /\ enums Sample.localeCompare info = []
    /\ unions Sample.localeCompare info = [Sample.shadeUnion].
Proof.
  eexists. split; [reflexivity|]. repeat split; reflexivity.
Qed.



(** C5 at a type whose name has a separator.  The table of contents links
    the type [widget_receipt] to [#widget_receipt], computed from the name
    as the service has it; the heading of its section is [WidgetReceipt],
    whose anchor is [#widgetreceipt], the target that a reference to the
    type gets from [buildLinkedTypeName].  The entry and the heading of the
    method agree. *)
Lemma C5_toc_anchor_of_type_misses_heading :
  Builder.buildToc Sample.host Sample.receiptService Sample.receiptInterface
  = Some ["- Methods"; "  - [file](#file)";
          "- Types"; "  - [WidgetReceipt](#widget_receipt)"]
  /\ Builder.buildTypeDocs Sample.host Sample.receiptService 1
       Sample.widget_receipt
     = Some ["### WidgetReceipt"; EmptyString; "`WidgetReceipt`"; EmptyString]
  /\ headingAnchor Sample.host "WidgetReceipt" = "#widgetreceipt"
  /\ anchor Sample.host (TypeDecl.name Sample.widget_receipt)
     <> headingAnchor Sample.host
          (Host.pascal Sample.host (TypeDecl.name Sample.widget_receipt))
  /\ Builder.buildLinkedTypeName Sample.host Sample.receiptService 1
       (Sample.ref "widget_receipt")
     = Some "[&lt;WidgetReceipt&gt;](#widgetreceipt)"
  /\ headingAnchor Sample.host "file" = "#file".
Proof. repeat split; discriminate. Qed.

(** C6 at two references that resolve to a Union.
    - [Json] has an array of [Json] among its members.  A reference to it
      is rendered at no fuel: the recursion of [buildLinkedTypeName]
      through the members has no guard against a cycle, unlike
      [InterfaceInfo.traverse].
    - The return value of [listPets] is an array of the union of [Cat] and
      [Dog].  [buildLinkedTypeName] renders it with one [[]] after the
      parenthesised members, as it does for a parameter or a property; the
      line that [buildMethodDocs] writes for the return value adds the
      suffix again, and the document shows it twice. *)
Lemma C6_recursive_union_and_repeated_suffix :
  (getUnionByName Sample.sameName Sample.jsonService "Json" = Some Sample.Json
   /\ ~ (exists fuel s,
           Builder.buildLinkedTypeName Sample.host Sample.jsonService fuel
             (Sample.ref "Json") = Some s))
  /\ (getUnionByName Sample.sameName Sample.petService "Pet" = Some Sample.Pet
      /\ Builder.buildLinkedTypeName Sample.host Sample.petService 2
           (Sample.arrayOf "Pet")
         = Some "([&lt;Cat&gt;](#cat) | [&lt;Dog&gt;](#dog))[]"
      /\ Builder.buildMethodDocs Sample.host Sample.petService 2
           Sample.listPets
         = Some ["### listPets"; EmptyString; "`listPets`"; EmptyString;
                 "Returns: ([&lt;Cat&gt;](#cat) | [&lt;Dog&gt;](#dog))[][]";
                 EmptyString]).
Proof.
  split; [|repeat split; reflexivity].
  split; [reflexivity|]. intros (fuel & s & H).
  rewrite (BuilderFacts.recursive_union_not_rendered fuel
             (Sample.ref "Json") eq_refl) in H.
  discriminate.
Qed.

(** C7, as the code has it.  Each rule of one of the eleven recognised kinds
    gives one line: the marker of a nested bullet, the text of the table,
    and the parameter, unchanged, between two backticks (the unique-items
    rule has no parameter); a rule of any other kind gives no line; and the
    lines of a list of rules are the lines of its rules in their order. *)
Theorem C7_rule_bullets :
  (forall max, Builder.buildRules [array_max_items max]
               = ["  - Max array length: `" ^ numberToString max ^ "`"])
  /\ (forall min, Builder.buildRules [array_min_items min]
                  = ["  - Min array length: `" ^ numberToString min ^ "`"])
  /\ Builder.buildRules [array_unique_items] = ["  - Values must be unique"]
  /\ (forall value, Builder.buildRules [number_gt value]
                    = ["  - Must be greater than `" ^ numberToString value ^ "`"])
  /\ (forall value, Builder.buildRules [number_gte value]
                    = ["  - Must be greater than or equal to `"
                         ^ numberToString value ^ "`"])
  /\ (forall value, Builder.buildRules [number_lt value]
                    = ["  - Must be less than `" ^ numberToString value ^ "`"])
  /\ (forall value, Builder.buildRules [number_lte value]
                    = ["  - Must be less than or equal to `"
                         ^ numberToString value ^ "`"])
  /\ (forall value, Builder.buildRules [number_multiple_of value]
                    = ["  - Must be a multiple of `" ^ numberToString value ^ "`"])
  /\ (forall length, Builder.buildRules [string_max_length length]
                     = ["  - Max length: `" ^ numberToString length ^ "`"])
  /\ (forall length, Builder.buildRules [string_min_length length]
                     = ["  - Min length: `" ^ numberToString length ^ "`"])
  /\ (forall pattern, Builder.buildRules [string_pattern pattern]
                      = ["  - Must match pattern: `" ^ pattern ^ "`"])
  /\ (forall id, Builder.buildRules [other_rule id] = [])
  /\ (forall rules rules',
        Builder.buildRules (rules ++ rules')
        = Builder.buildRules rules ++ Builder.buildRules rules').
Proof.
  repeat apply conj; try reflexivity.
  intros rules rules'. unfold Builder.buildRules. apply flat_map_app.
Qed.

(** C7 as stated fails: for the pattern of the specification the line is not
    the text of the table with the pattern put in, with or without the
    bullet marker; the pattern stands between backticks. *)
Lemma C7_counterexample :
  Builder.buildRules [string_pattern "^[a-z]+$"]
  = ["  - Must match pattern: `^[a-z]+$`"]
  /\ Builder.buildRules [string_pattern "^[a-z]+$"]
     <> ["  - Must match pattern: ^[a-z]+$"]
  /\ Builder.buildRules [string_pattern "^[a-z]+$"]
     <> ["Must match pattern: ^[a-z]+$"].
Proof. repeat split; discriminate. Qed.

(** C8. A name that resolves to no Type, Enum or Union is no error.
    - [traverse] returns from it at once, yields nothing and leaves the
      instance as it is; the instance resolved for an interface holds no
      such name.
    - [buildLinkedTypeName] returns for it at every fuel but zero: the text
      of [linkedName], which for a reference that is not primitive is the
      escaped display name of the reference linked to the anchor of that
      name.
    - When the union nesting of the service is finite, whatever references
      dangle, [build] returns, with one document per interface. *)
Theorem C8_dangling_reference_is_no_error (host : Host.t) (service : Service.t) :
  (forall fuel mode name this,
      Graph.resolves (Host.sameName host) service name = false ->
      InterfaceInfo.traverse (Host.sameName host) (S fuel) service name mode this
      = Some ([], this))
  /\ (forall int,
         exists info,
           InterfaceInfo.new (Host.sameName host) service int = Some info
           /\ forall kind mode name,
               Graph.resolves (Host.sameName host) service name = false ->
               ~ In name (Kind.names kind mode info))
  /\ (forall fuel param,
         Graph.resolves (Host.sameName host) service
           (TypedValue.typeName param) = false ->
         Builder.buildLinkedTypeName host service (S fuel) param
         = Some (Builder.linkedName host param)
         /\ (TypedValue.isPrimitive param = false ->
             Builder.linkedName host param
             = "[&lt;" ^ Builder.buildTypeName host param true
                 ^ Builder.arraySuffix param ^ "&gt;]("
                 ^ anchor host (Builder.buildTypeName host param true) ^ ")"))
  /\ (finiteUnions (Host.sameName host) service ->
      exists documents,
        returns (Builder.build host service) documents
        /\ List.length documents = List.length (Service.interfaces service)).
Proof.
  split; [|split; [|split]].
  - intros fuel mode name this H. apply Settled.traverse_dangling. assumption.
  - intros int.
    destruct (InitSpec.new_returns (Host.sameName host) service int)
      as (info & E & _ & Hres & Hroots).
    exists info. split; [assumption|].
    intros kind mode name Hd Hin.
    apply (ClosureSpec.names_iff _ service int info Hres Hroots) in Hin.
    destruct Hin as [[Hr _] _]. congruence.
  - intros fuel param Hd. split.
    + apply BuilderReturns.buildLinkedTypeName_leaf.
      unfold Graph.resolves in Hd.
      destruct (getTypeByName (Host.sameName host) service
                  (TypedValue.typeName param));
        [discriminate|].
      destruct (getUnionByName (Host.sameName host) service
                  (TypedValue.typeName param));
        [discriminate | reflexivity].
    + intros Hp. unfold Builder.linkedName. rewrite Hp. reflexivity.
  - intros Hfin.
    destruct (BuilderReturns.build_returns host service Hfin)
      as (documents & n & Hn).
    exists documents. split; [exists n; assumption|].
    apply (BuilderFacts.mapM_length _ _ _ (Hn n (le_n _))).
Qed.

(** The scenario of C8: the property [ghost] of [Haunted] and the parameter
    [phantom] name types that the service does not declare. *)
Lemma C8_witness :
  exists documents,
    returns (Builder.build Sample.host Sample.hauntedService) documents
    /\ List.length documents = 1
    /\ documents
       = [["<!--"; "This file was generated"; "--->"; EmptyString;
           "# Haunts"; EmptyString;
           "- Methods"; "  - [haunt](#haunt)";
           "- Types"; "  - [Haunted](#haunted)"; EmptyString;
           "## Methods"; EmptyString; "### haunt"; EmptyString;
           "`haunt({house, phantom?})`"; EmptyString;
           "- `house` [&lt;Haunted&gt;](#haunted)";
           "- `phantom` [&lt;Phantom&gt;](#phantom) (optional)"; EmptyString;
           "## Types"; EmptyString; "### Haunted"; EmptyString;
           "`Haunted`"; EmptyString;
           "- `ghost` [&lt;Ghost&gt;](#ghost)"; EmptyString]].
Proof.
  assert (Hfin : finiteUnions Sample.sameName Sample.hauntedService)
    by (intros name; apply Graph.finite_leaf; reflexivity).
  destruct (proj2 (proj2 (proj2 (C8_dangling_reference_is_no_error
                                   Sample.host Sample.hauntedService))) Hfin)
    as (documents & [n Hn] & Hl).
  exists documents. split; [exists n; exact Hn|]. split; [exact Hl|].
  pose proof (Hn (Nat.max n 1) (Nat.le_max_l _ _)) as E.
  rewrite (BuilderFacts.build_fuel Sample.host Sample.hauntedService 1
             (Nat.max n 1) _ (Nat.le_max_r _ _) eq_refl) in E.
  injection E as <-. reflexivity.
Defined.

(** C10. The call signature of a method without parameters is the name of
    the method and nothing else; a method with parameters gets, after its
    name, the parenthesised object of its parameters sorted by name, a [?]
    after each parameter that is not required, and the marker
    [ | undefined] when none is required. *)
Theorem C10_method_definition (host : Host.t) (method : Method.t) :
  (Method.parameters method = [] ->
   Builder.buildMethodDefinition host method = Host.buildMethodName host method)
  /\ (Method.parameters method <> [] ->
      Builder.buildMethodDefinition host method
      = Host.buildMethodName host method
          ^ "({"
          ^ join ", "
              (map (fun param =>
                      Host.buildParameterName host param
                        ^ (if isRequired (ParameterDecl.rules param)
                           then EmptyString else "?"))
                 (sortParameters host (Method.parameters method)))
          ^ "}"
          ^ (if existsb (fun p => isRequired (ParameterDecl.rules p))
                  (Method.parameters method)
             then EmptyString else " | undefined")
          ^ ")").
Proof.
  unfold Builder.buildMethodDefinition.
  destruct (Method.parameters method) as [|p ps]; split; intros H.
  - induction (Host.buildMethodName host method) as [|c s IH]; simpl;
      [reflexivity | f_equal; exact IH].
  - contradiction.
  - discriminate.
  - reflexivity.
Qed.

Lemma C10_witness :
  Builder.buildMethodDefinition Sample.host Sample.ping = "ping"
  /\ Builder.buildMethodDefinition Sample.host Sample.search
     = "search({limit?, query?} | undefined)".
Proof.
  split.
  - rewrite (proj1 (C10_method_definition Sample.host Sample.ping));
      reflexivity.
  - rewrite (proj2 (C10_method_definition Sample.host Sample.search));
      [reflexivity | discriminate].
Defined.
End Claims.

(** * Further properties of the code *)

(** ** Strings *)

Module StringFacts.

Lemma length_append (a b : string) :
  String.length (a ++ b) = String.length a + String.length b.
Proof. induction a as [|c a IH]; simpl; [reflexivity | rewrite IH; reflexivity]. Qed.

Lemma substring_prefix (a b : string) :
  substring 0 (String.length a) (a ++ b) = a.
Proof.
  induction a as [|c a IH]; simpl.
  - destruct b; reflexivity.
  - rewrite IH. reflexivity.
Qed.

Lemma substring_suffix (a b : string) :
  substring (String.length a) (String.length b) (a ++ b) = b.
Proof.
  induction a as [|c a IH]; simpl; [|exact IH].
  induction b as [|c b IH]; simpl; [reflexivity | rewrite IH; reflexivity].
Qed.

Lemma substring_split (s : string) : forall n,
    n <= String.length s ->
    s = (substring 0 n s ++ substring n (String.length s - n) s)%string.
Proof.
  induction s as [|c s IH]; intros n Hn; simpl in *.
  - destruct n; reflexivity.
  - destruct n as [|n]; simpl.
    + f_equal. clear. induction s as [|d s IH]; simpl; [reflexivity|].
      rewrite <- IH. reflexivity.
    + f_equal. apply IH. lia.
Qed.

(** [endsWith] answers exactly on the strings that are some text followed
    by the suffix. *)
Lemma endsWith_iff (s suffix : string) :
  endsWith s suffix = true <-> exists before, s = (before ++ suffix)%string.
Proof.
  unfold endsWith. rewrite andb_true_iff, Nat.leb_le, String.eqb_eq. split.
  - intros [Hle Hs].
    exists (substring 0 (String.length s - String.length suffix) s).
    rewrite (substring_split s (String.length s - String.length suffix))
      at 1 by lia.
    f_equal.
    replace (String.length s - (String.length s - String.length suffix))
      with (String.length suffix) by lia.
    assumption.
  - intros [before ->]. rewrite length_append. split; [lia|].
    replace (String.length before + String.length suffix - String.length suffix)
      with (String.length before) by lia.
    apply substring_suffix.
Qed.

Lemma split_space_cons (s : string) : exists w ws, split_space s = w :: ws.
Proof.
  induction s as [|c s (w & ws & IH)]; simpl; [eauto|].
  destruct (Ascii.eqb c " "); [eauto|]. rewrite IH. eauto.
Qed.

(** Splitting at the spaces and joining with hyphens replaces each space by
    a hyphen, character by character. *)
Lemma join_split_space (s : string) :
  join "-" (split_space s) = replaceSpaces s.
Proof.
  unfold join. induction s as [|c s IH]; simpl; [reflexivity|].
  destruct (split_space_cons s) as (w & ws & E). rewrite E in *.
  destruct (Ascii.eqb c " "); simpl.
  - rewrite <- IH. reflexivity.
  - rewrite <- IH. simpl. destruct ws; reflexivity.
Qed.

Lemma anchor_chars (host : Host.t) (name : string) :
  anchor host name
  = String "#" (replaceSpaces (Host.toLocaleLowerCase host name)).
Proof. unfold anchor. rewrite join_split_space. reflexivity. Qed.

Lemma length_replaceSpaces (s : string) :
  String.length (replaceSpaces s) = String.length s.
Proof. induction s; simpl; congruence. Qed.

Lemma replaceSpaces_chars (s : string) :
  Forall (fun c => c <> " "%char) (list_ascii_of_string (replaceSpaces s)).
Proof.
  induction s as [|c s IH]; simpl; constructor; [|assumption].
  destruct (Ascii.eqb_spec c " ") as [E|E]; [discriminate | assumption].
Qed.

End StringFacts.

(** ** What [traverse] adds *)

Module TraverseAdds.
Import InterfaceInfo Invariant TraverseFacts Adds.

Section Adds.
Variable sameName : string -> string -> bool.
Variable service : Service.t.
Variable mode : Mode.

Lemma adds_refl this : adds mode [] this this.
Proof.
  unfold adds.
  repeat apply conj; try reflexivity; exists []; rewrite app_nil_r;
    try split; reflexivity.
Qed.

Lemma adds_trans ys zs a b c :
  adds mode ys a b -> adds mode zs b c -> adds mode (ys ++ zs) a c.
Proof.
  unfold adds.
  intros ((t1 & T1 & V1) & [u1 U1] & [e1 E1] & T1' & U1' & E1')
         ((t2 & T2 & V2) & [u2 U2] & [e2 E2] & T2' & U2' & E2').
  repeat apply conj; try congruence.
  - exists (t1 ++ t2). split; [rewrite T2, T1, app_assoc; reflexivity|].
    unfold JsMap.values in *. rewrite map_app. congruence.
  - exists (u1 ++ u2). rewrite U2, U1, app_assoc. reflexivity.
  - exists (e1 ++ e2). rewrite E2, E1, app_assoc. reflexivity.
Qed.

Lemma forEach_adds {A : Type} (body : A -> t -> Gen) xs :
  (forall x this ys this', body x this = Some (ys, this') -> adds mode ys this this') ->
  forall this ys this',
    forEach body xs this = Some (ys, this') -> adds mode ys this this'.
Proof.
  intros Hbody. induction xs as [|x xs IH]; intros this ys this'; simpl.
  - intros H. injection H as <- <-. apply adds_refl.
  - destruct (body x this) as [[ys1 this1]|] eqn:E1; [|discriminate].
    destruct (forEach body xs this1) as [[ys2 this2]|] eqn:E2; [|discriminate].
    intros H. injection H as <- <-.
    eapply adds_trans; eauto.
Qed.

Lemma traverse_adds fuel : forall name this ys this',
    traverse sameName fuel service name mode this = Some (ys, this') ->
    adds mode ys this this'.
Proof.
  induction fuel as [|fuel IH]; intros name this ys this'; [discriminate|].
  rewrite TraverseSpec.traverse_S.
  destruct (visited mode this name) eqn:V.
  { intros H. injection H as <- <-. apply adds_refl. }
  assert (Hfresh : ~ In name (JsMap.keys (typesOf mode this))
                   /\ ~ In name (JsMap.keys (unionsOf mode this))
                   /\ ~ In name (JsMap.keys (enumsOf mode this))).
  { unfold visited in V. rewrite !orb_false_iff in V.
    destruct V as [[VT VU] VE].
    repeat split; apply JsMapFacts.has_false; assumption. }
  destruct Hfresh as (FT & FU & FE).
  destruct (getTypeByName sameName service name) as [type|] eqn:T.
  { destruct (forEach _ (TypeDecl.properties type) _) as [[zs this1]|] eqn:F;
      [|discriminate].
    intros H. injection H as <- <-.
    apply forEach_adds in F.
    2:{ intros x th ys0 th'.
        destruct (negb (TypedValue.isPrimitive (PropertyDecl.typed x)));
          [apply IH|].
        intros H. injection H as <- <-. apply adds_refl. }
    apply (adds_trans [type] zs this (setType mode name type this) this1);
      [|assumption].
    destruct (typesOf_setType mode name type this) as (T1 & U1 & E1 & T2 & U2 & E2).
    unfold adds. rewrite T1, U1, E1, T2, U2, E2.
    rewrite (JsMapFacts.set_fresh _ _ _ FT).
    repeat apply conj; try reflexivity;
      [exists [(name, type)]; split; reflexivity
      | exists []; rewrite app_nil_r; reflexivity
      | exists []; rewrite app_nil_r; reflexivity]. }
  destruct (getUnionByName sameName service name) as [union|] eqn:U.
  { intros F. apply forEach_adds in F; [|intros x th ys0 th'; apply IH].
    apply (adds_trans [] ys this (setUnion mode name union this) this');
      [|assumption].
    destruct (unionsOf_setUnion mode name union this)
      as (T1 & U1 & E1 & T2 & U2 & E2).
    unfold adds. rewrite T1, U1, E1, T2, U2, E2.
    rewrite (JsMapFacts.set_fresh _ _ _ FU).
    repeat apply conj; try reflexivity;
      [exists []; rewrite app_nil_r; split; reflexivity
      | eexists; reflexivity
      | exists []; rewrite app_nil_r; reflexivity]. }
  destruct (getEnumByName sameName service name) as [e|] eqn:E.
  { intros H. injection H as <- <-.
    destruct (enumsOf_setEnum mode name e this) as (T1 & U1 & E1 & T2 & U2 & E2).
    unfold adds. rewrite T1, U1, E1, T2, U2, E2.
    rewrite (JsMapFacts.set_fresh _ _ _ FE).
    repeat apply conj; try reflexivity;
      [exists []; rewrite app_nil_r; split; reflexivity
      | exists []; rewrite app_nil_r; reflexivity
      | eexists; reflexivity]. }
  intros H. injection H as <- <-. apply adds_refl.
Qed.
End Adds.
End TraverseAdds.

(** ** More on the closure *)

Module ClosureMore.
Import InterfaceInfo Invariant TraverseFacts.

Lemma NoDup_app_disjoint {A : Type} (l l' : list A) x :
  NoDup (l ++ l') -> In x l -> ~ In x l'.
Proof.
  induction l as [|a l IH]; simpl; intros Hnd Hin; [contradiction|].
  inversion Hnd as [|? ? Hna Hnd']; subst.
  destruct Hin as [->|Hin]; [|auto].
  intros Hx. apply Hna. apply in_or_app. auto.
Qed.

(** Whatever the fuel at which [traverse] returns, its result is the one
    that [TraverseSpec.traverse_returns_any] describes. *)
Lemma traverse_traversed sameName service mode fuel name this ys this' :
  traverse sameName fuel service name mode this = Some (ys, this') ->
  traversed sameName service mode name this this'.
Proof.
  intros E.
  pose proof (InitSpec.traverse_fuel sameName service mode fuel
                (S (Nat.max fuel (depth service))) name this _
                (Nat.le_trans _ _ _ (Nat.le_max_l _ _) (Nat.le_succ_diag_r _))
                E) as E'.
  destruct (TraverseSpec.traverse_returns_any sameName service mode
              (Nat.max fuel (depth service)) name this) as (ys2 & this2 & E2 & T).
  { pose proof (unvisited_depth service mode this). lia. }
  rewrite E' in E2. injection E2 as <- <-. assumption.
Qed.

Lemma reach_from_dangling sameName service root name :
  Graph.resolves sameName service root = false ->
  Graph.reach sameName service root name -> name = root.
Proof.
  intros Hd Hr. induction Hr as [|name next Hr IH Hnext]; [reflexivity|].
  subst name. apply successors_resolves in Hnext. congruence.
Qed.

Lemma roots_incl mode int int' :
  incl (Interface.methods int) (Interface.methods int') ->
  incl (Graph.roots mode int) (Graph.roots mode int').
Proof.
  intros H root. destruct mode; simpl;
    unfold Graph.inputRoots, Graph.outputRoots; rewrite !in_flat_map;
    intros (m & Hm & Hr); exists m; auto.
Qed.

(** The entities of a merged view are the values of the two maps, when the
    maps agree on the keys they share. *)
Lemma merged_values {V : Type} localeCompare (a b : JsMap.t V) :
  NoDup (JsMap.keys a) -> NoDup (JsMap.keys b) ->
  (forall k v v', In (k, v) a -> In (k, v') b -> v = v') ->
  forall v, In v (merged localeCompare a b) <->
            In v (JsMap.values a) \/ In v (JsMap.values b).
Proof.
  intros Na Nb Hagree v. unfold merged, JsMap.values.
  rewrite in_flat_map, !in_map_iff. split.
  - intros (n & Hn & Hv).
    destruct (JsMap.get a n) as [va|] eqn:A.
    + destruct Hv as [<-|[]]. left. exists (n, va).
      split; [reflexivity | apply JsMapFacts.get_Some; assumption].
    + destruct (JsMap.get b n) as [vb|] eqn:B; [|contradiction].
      destruct Hv as [<-|[]]. right. exists (n, vb).
      split; [reflexivity | apply JsMapFacts.get_Some; assumption].
  - assert (L : forall k, In k (JsMap.keys a) \/ In k (JsMap.keys b) ->
                          In k (sort localeCompare
                                  (Set_from (JsMap.keys a ++ JsMap.keys b)))).
    { intros k Hk. apply SortFacts.sort_In, SortFacts.Set_from_In, in_or_app.
      assumption. }
    intros [([k v'] & Hv & Hin)|([k v'] & Hv & Hin)]; simpl in Hv; subst v';
      exists k.
    + split; [apply L; left; apply in_map_iff; exists (k, v); auto|].
      rewrite (JsMapFacts.get_In a k v Na Hin). simpl. auto.
    + split; [apply L; right; apply in_map_iff; exists (k, v); auto|].
      destruct (JsMap.get a k) as [va|] eqn:A.
      * apply JsMapFacts.get_Some in A. rewrite (Hagree k va v A Hin).
        simpl. auto.
      * rewrite (JsMapFacts.get_In b k v Nb Hin). simpl. auto.
Qed.

Section Entries.
Variable sameName : string -> string -> bool.
Variable service : Service.t.
Variable int : Interface.t.
Variable info : t.
Hypothesis Hres : resolved sameName service int info.
Hypothesis Hroots : forall mode root,
    In root (Graph.roots mode int) ->
    Graph.resolves sameName service root = true ->
    visited mode info root = true.

Lemma types_entry_iff mode k v :
  In (k, v) (typesOf mode info) <->
  getTypeByName sameName service k = Some v /\ Graph.reachable sameName service mode int k.
Proof.
  destruct (ClosureSpec.resolved_mode sameName service int info Hres mode)
    as [(WT & _) _].
  split.
  - intros Hin. split; [auto|].
    apply (ClosureSpec.names_iff sameName service int info Hres Hroots Kind.type).
    simpl. unfold JsMap.keys. apply in_map_iff. exists (k, v). auto.
  - intros [Hk Hr]. apply JsMapFacts.get_Some.
    eapply ClosureSpec.types_entry; eassumption.
Qed.

Lemma enums_entry_iff mode k v :
  In (k, v) (enumsOf mode info) <->
  Kind.resolve sameName service k = Some Kind.enum
  /\ getEnumByName sameName service k = Some v
  /\ Graph.reachable sameName service mode int k.
Proof.
  destruct (ClosureSpec.resolved_mode sameName service int info Hres mode)
    as [(_ & _ & WE & _) _].
  pose proof (ClosureSpec.names_iff sameName service int info Hres Hroots Kind.enum mode k)
    as N.
  split.
  - intros Hin.
    assert (Hk : In k (Kind.names Kind.enum mode info)).
    { simpl. unfold JsMap.keys. apply in_map_iff. exists (k, v). auto. }
    apply N in Hk. destruct Hk as [Hr Hk].
    destruct (WE _ _ Hin) as (_ & _ & He). auto.
  - intros (Hk & He & Hr).
    assert (Hin : In k (Kind.names Kind.enum mode info)) by (apply N; auto).
    simpl in Hin. unfold JsMap.keys in Hin. apply in_map_iff in Hin.
    destruct Hin as ([k' v'] & Hk' & Hin). simpl in Hk'. subst k'.
    destruct (WE _ _ Hin) as (_ & _ & He').
    assert (v' = v) by congruence. subst. assumption.
Qed.
End Entries.

End ClosureMore.

(** ** Files *)

Module FileFacts.
Lemma mapM_ext {A B : Type} (f g : A -> option B) (l : list A) :
  (forall x, In x l -> f x = g x) -> mapM f l = mapM g l.
Proof.
  induction l as [|x l IH]; intros H; simpl; [reflexivity|].
  rewrite (H x (or_introl eq_refl)), IH by (intros; apply H; simpl; auto).
  reflexivity.
Qed.
End FileFacts.

(** * Properties beyond the claims *)

Module Extra.
Import InterfaceInfo.

(** X1. [anchor] gives a ["#"] followed by the lower-cased name, character
    by character, with every space turned into a hyphen: the anchor is one
    character longer than the lower-cased name and has no space in it. *)
Theorem X1_anchor_normal_form (host : Host.t) (name : string) :
  anchor host name
  = String "#" (replaceSpaces (Host.toLocaleLowerCase host name))
  /\ String.length (anchor host name)
     = S (String.length (Host.toLocaleLowerCase host name))
  /\ Forall (fun c => c <> " "%char) (list_ascii_of_string (anchor host name)).
Proof.
  rewrite StringFacts.anchor_chars. split; [reflexivity|]. split.
  - simpl. rewrite StringFacts.length_replaceSpaces. reflexivity.
  - simpl. constructor; [discriminate|].
    apply StringFacts.replaceSpaces_chars.
Qed.

(** X3. [Builder.buildTypeName] with [skipArrayify] strips one trailing
    ["[]"] from the name that the TypeScript name factory gives, and only
    that: a name that does not end in ["[]"] is returned whole, as is every
    name when [skipArrayify] is off. *)
Theorem X3_buildTypeName_strips_one_suffix (host : Host.t) (type : TypedValue.t) :
  Builder.buildTypeName host type false = Host.buildTypeName host type
  /\ (forall base,
         Host.buildTypeName host type = base ^ "[]" ->
         Builder.buildTypeName host type true = base)
  /\ ((forall base, Host.buildTypeName host type <> base ^ "[]") ->
      Builder.buildTypeName host type true = Host.buildTypeName host type).
Proof.
  unfold Builder.buildTypeName. split; [|split].
  - rewrite andb_false_r. reflexivity.
  - intros base E. rewrite E.
    rewrite (proj2 (StringFacts.endsWith_iff _ _) (ex_intro _ base eq_refl)).
    simpl andb. cbv iota.
    rewrite StringFacts.length_append. simpl String.length.
    replace (String.length base + 2 - 2) with (String.length base) by lia.
    apply StringFacts.substring_prefix.
  - intros H.
    destruct (endsWith (Host.buildTypeName host type) "[]") eqn:E;
      [|reflexivity].
    apply StringFacts.endsWith_iff in E. destruct E as [base E].
    exfalso. exact (H base E).
Qed.

Lemma X3_witness :
  Builder.buildTypeName Sample.host (Sample.arrayOf "Pet") true = "Pet"
  /\ Builder.buildTypeName Sample.host (Sample.ref "Pet") true = "Pet".
Proof.
  split.
  - apply (proj1 (proj2 (X3_buildTypeName_strips_one_suffix Sample.host
                           (Sample.arrayOf "Pet")))).
    reflexivity.
  - rewrite (proj2 (proj2 (X3_buildTypeName_strips_one_suffix Sample.host
                             (Sample.ref "Pet")))); [reflexivity|].
    intros base E. apply (f_equal (fun s => endsWith s "[]")) in E.
    rewrite (proj2 (StringFacts.endsWith_iff (base ^ "[]") "[]")
               (ex_intro _ base eq_refl)) in E.
    discriminate E.
Defined.

(** X4. [sortParameters] returns the parameters it was given, each as often
    as it was given, and [Builder.methods] the methods of the interface;
    when the comparison of the host is consistent the result is ascending
    by name, and sorting it again changes nothing. *)
Theorem X4_sortParameters_permutes_and_orders
        (host : Host.t) (parameters : list ParameterDecl.t) (int : Interface.t) :
  Permutation parameters (sortParameters host parameters)
  /\ Permutation (Interface.methods int) (Builder.methods host int)
  /\ (consistent (Host.localeCompare host) ->
      ascending (byName (Host.localeCompare host) ParameterDecl.name)
        (sortParameters host parameters)
      /\ sortParameters host (sortParameters host parameters)
         = sortParameters host parameters).
Proof.
  split; [apply SortFacts.sort_Permutation|].
  split; [apply SortFacts.sort_Permutation|].
  intros Hc.
  assert (A : ascending (byName (Host.localeCompare host) ParameterDecl.name)
                (sortParameters host parameters)).
  { apply (SortFacts.sort_ascending (byName _ _)).
    apply SortFacts.consistent_byName. assumption. }
  split; [assumption|].
  apply (SortFacts.sort_ascending_id (byName _ _) _ A).
Qed.

Lemma X4_witness :
  sortParameters Sample.host (Method.parameters Sample.search)
  = [ParameterDecl.mk "limit" None (Sample.primitive "integer") [];
     ParameterDecl.mk "query" None (Sample.primitive "string") []]
  /\ sortParameters Sample.host
       (sortParameters Sample.host (Method.parameters Sample.search))
     = sortParameters Sample.host (Method.parameters Sample.search).
Proof.
  split; [reflexivity|].
  apply (proj2 (proj2 (X4_sortParameters_permutes_and_orders Sample.host
                         (Method.parameters Sample.search)
                         Sample.idleInterface))).
  apply SortFacts.localeCompare_consistent.
Defined.

(** X5. [traverse] yields the Types that it records: when it returns from
    an instance whose entries are well keyed, the map of types of its mode
    is the former map followed by new entries, and the yielded Types are
    the values of these entries, in their order.  No name is entered
    twice, and every new entry holds, under a name that was not in the map
    before, the Type with which the look-up answers that name. *)
Theorem X5_traverse_yields_what_it_records
        (sameName : string -> string -> bool)
        (service : Service.t) (mode : Mode) (fuel : nat) (name : string)
        (this this' : t) (ys : list TypeDecl.t) :
  Invariant.wellKeyed sameName service mode this ->
  traverse sameName fuel service name mode this = Some (ys, this') ->
  exists added,
    typesOf mode this' = typesOf mode this ++ added
    /\ JsMap.values added = ys
    /\ NoDup (JsMap.keys added)
    /\ forall k v,
        In (k, v) added ->
        getTypeByName sameName service k = Some v
        /\ ~ In k (JsMap.keys (typesOf mode this)).
Proof.
  intros Hw E.
  destruct (TraverseAdds.traverse_adds sameName service mode fuel _ _ _ _ E)
    as ((added & T & V) & _).
  destruct (ClosureMore.traverse_traversed _ _ _ _ _ _ _ _ E)
    as ((_ & _ & _ & _ & W) & _).
  destruct (W Hw) as (WT & _ & _ & NT & _).
  assert (K : JsMap.keys (typesOf mode this')
              = JsMap.keys (typesOf mode this) ++ JsMap.keys added).
  { rewrite T. unfold JsMap.keys. rewrite map_app. reflexivity. }
  rewrite K in NT. exists added.
  split; [assumption|]. split; [assumption|].
  split; [eapply NoDup_app_remove_l; eassumption|].
  intros k v Hin. split.
  - apply WT. rewrite T. apply in_or_app. auto.
  - intros Hold.
    apply (ClosureMore.NoDup_app_disjoint _ _ _ NT Hold).
    unfold JsMap.keys. apply in_map_iff. exists (k, v). auto.
Qed.

Lemma X5_witness :
  exists added,
    typesOf input
      (mk [] [] [("Node", Sample.LooseNode); ("node", Sample.LooseNode)]
         [] [] [])
    = typesOf input fresh ++ added
    /\ JsMap.values added = [Sample.LooseNode; Sample.LooseNode]
    /\ NoDup (JsMap.keys added).
Proof.
  destruct (X5_traverse_yields_what_it_records Sample.sameName
              Sample.looseService input 3 "Node" fresh _
              [Sample.LooseNode; Sample.LooseNode]
              (proj1 (InitSpec.resolved_fresh Sample.sameName
                        Sample.looseService Sample.looseInterface))
              eq_refl)
    as (added & T & V & N & _).
  exists added. auto.
Defined.

(** X6. [traverse] only adds: when it returns, each of the three maps of
    its mode is the former map with entries added at the end, so no entry
    is removed, replaced or moved, and the three maps of the other mode are
    what they were. *)
Theorem X6_traverse_only_appends
        (sameName : string -> string -> bool)
        (service : Service.t) (mode : Mode) (fuel : nat) (name : string)
        (this this' : t) (ys : list TypeDecl.t) :
  traverse sameName fuel service name mode this = Some (ys, this') ->
  (exists addedTypes addedUnions addedEnums,
      typesOf mode this' = typesOf mode this ++ addedTypes
      /\ unionsOf mode this' = unionsOf mode this ++ addedUnions
      /\ enumsOf mode this' = enumsOf mode this ++ addedEnums)
  /\ typesOf (Invariant.other mode) this' = typesOf (Invariant.other mode) this
  /\ unionsOf (Invariant.other mode) this' = unionsOf (Invariant.other mode) this
  /\ enumsOf (Invariant.other mode) this' = enumsOf (Invariant.other mode) this.
Proof.
  intros E.
  destruct (TraverseAdds.traverse_adds sameName service mode fuel _ _ _ _ E)
    as ((ts & T & _) & [us U] & [es Es] & T' & U' & E').
  split; [|auto]. eauto 6.
Qed.

Lemma X6_witness :
  exists this',
    traverse Sample.sameName 2 Sample.widgetService "WidgetReceipt" output
      (mk [] [] [("Widget", Sample.Widget)] [] [] [])
    = Some ([Sample.WidgetReceipt], this')
    /\ _inputTypes this' = [("Widget", Sample.Widget)]
    /\ _inputUnions this' = [] /\ _inputEnums this' = [].
Proof.
  eexists. split; [reflexivity|].
  destruct (X6_traverse_only_appends Sample.sameName Sample.widgetService output 2
              "WidgetReceipt" (mk [] [] [("Widget", Sample.Widget)] [] [] [])
              _ _ eq_refl) as (_ & T & U & E).
  simpl in T, U, E. auto.
Defined.

(** X7. In the instance resolved for an interface no name is held under two
    kinds in one direction, and every entry is an entity that the service
    declares, held under a name that the look-up does not tell apart from
    the name of the entity. *)
Theorem X7_entries_are_entities_of_one_kind
        (sameName : string -> string -> bool)
        (service : Service.t) (int : Interface.t) :
  exists info,
    new sameName service int = Some info
    /\ (forall mode name kind kind',
          In name (Kind.names kind mode info) ->
          In name (Kind.names kind' mode info) -> kind = kind')
    /\ (forall mode k v, In (k, v) (typesOf mode info) ->
                         In v (Service.types service)
                         /\ sameName (TypeDecl.name v) k = true)
    /\ (forall mode k v, In (k, v) (unionsOf mode info) ->
                         In v (Service.unions service)
                         /\ sameName (Union.name v) k = true)
    /\ (forall mode k v, In (k, v) (enumsOf mode info) ->
                         In v (Service.enums service)
                         /\ sameName (Enum.name v) k = true).
Proof.
  destruct (InitSpec.new_returns sameName service int)
    as (info & E & _ & Hres & Hroots).
  exists info. split; [assumption|].
  pose proof (ClosureSpec.names_resolve sameName service int info Hres) as R.
  pose proof (ClosureSpec.resolved_mode sameName service int info Hres) as M.
  split; [|split; [|split]].
  - intros mode name kind kind' H H'.
    apply R in H. apply R in H'. congruence.
  - intros mode k v Hin. destruct (M mode) as [(WT & _) _].
    apply and_comm. apply (TraverseFacts.getTypeByName_Some sameName service).
    auto.
  - intros mode k v Hin. destruct (M mode) as [(_ & WU & _) _].
    apply and_comm. apply (TraverseFacts.getUnionByName_Some sameName service).
    apply (WU _ _ Hin).
  - intros mode k v Hin. destruct (M mode) as [(_ & _ & WE & _) _].
    apply and_comm. apply (TraverseFacts.getEnumByName_Some sameName service).
    apply (WE _ _ Hin).
Qed.

Lemma X7_witness :
  exists info,
    new Sample.sameName Sample.shadeService Sample.shadeInterface = Some info
    /\ In Sample.shadeUnion (Service.unions Sample.shadeService)
    /\ ~ In "Shade" (Kind.names Kind.enum input info).
Proof.
  destruct (X7_entries_are_entities_of_one_kind Sample.sameName
              Sample.shadeService Sample.shadeInterface)
    as (info & E & D & _ & U & _).
  exists info. split; [exact E|].
  assert (Hinfo : Some info
                  = Some (mk [] [] [] [] [("Shade", Sample.shadeUnion)] []))
    by (rewrite <- E; reflexivity).
  injection Hinfo as Hinfo.
  assert (Hu : In ("Shade", Sample.shadeUnion) (unionsOf input info))
    by (rewrite Hinfo; simpl; auto).
  split; [exact (proj1 (U input _ _ Hu))|].
  intros He.
  assert (Hk : In "Shade" (Kind.names Kind.union input info))
    by (rewrite Hinfo; simpl; auto).
  discriminate (D input "Shade" Kind.union Kind.enum Hk He).
Defined.

(** X8. The closure is closed.  In the instance resolved for an interface,
    when a Type is held in a direction, every property of it that is not
    primitive and whose type name resolves has that name held in the same
    direction; and when a Union is held, so is every member whose name
    resolves, primitive or not. *)
Theorem X8_closure_is_closed
        (sameName : string -> string -> bool)
        (service : Service.t) (int : Interface.t) :
  exists info,
    new sameName service int = Some info
    /\ (forall mode name type prop,
          In (name, type) (typesOf mode info) ->
          In prop (TypeDecl.properties type) ->
          TypedValue.isPrimitive (PropertyDecl.typed prop) = false ->
          Graph.resolves sameName service
            (TypedValue.typeName (PropertyDecl.typed prop)) = true ->
          visited mode info
            (TypedValue.typeName (PropertyDecl.typed prop)) = true)
    /\ (forall mode name union member,
          In (name, union) (unionsOf mode info) ->
          In member (Union.members union) ->
          Graph.resolves sameName service (TypedValue.typeName member) = true ->
          visited mode info (TypedValue.typeName member) = true).
Proof.
  destruct (InitSpec.new_returns sameName service int) as (info & E & _ & Hres & Hroots).
  exists info. split; [assumption|].
  pose proof (ClosureSpec.resolved_mode sameName service int info Hres) as M.
  split.
  - intros mode name type prop Hin Hp Hprim Hr.
    destruct (M mode) as [(WT & _) S].
    assert (V : visited mode info name = true).
    { apply TraverseFacts.visited_iff. left. unfold JsMap.keys.
      apply in_map_iff. exists (name, type). auto. }
    destruct (S name V) as [_ C]. apply C; [|assumption].
    unfold Graph.successors. rewrite (WT _ _ Hin).
    apply in_map_iff. exists prop. split; [reflexivity|].
    apply filter_In. rewrite Hprim. auto.
  - intros mode name union member Hin Hm Hr.
    destruct (M mode) as [(_ & WU & _) S].
    assert (V : visited mode info name = true).
    { apply TraverseFacts.visited_iff. right. left. unfold JsMap.keys.
      apply in_map_iff. exists (name, union). auto. }
    destruct (S name V) as [_ C]. apply C; [|assumption].
    unfold Graph.successors. destruct (WU _ _ Hin) as [-> ->].
    apply in_map. assumption.
Qed.

Lemma X8_witness :
  exists info,
    new Sample.sameName Sample.stableService Sample.stableInterface = Some info
    /\ visited input info "Zebra" = true.
Proof.
  destruct (X8_closure_is_closed Sample.sameName Sample.stableService Sample.stableInterface)
    as (info & E & C & _).
  exists info. split; [exact E|].
  assert (Hinfo : Some info
                  = Some (mk [] [] [("Stable", Sample.Stable);
                                    ("Zebra", Sample.Zebra)] [] [] []))
    by (rewrite <- E; reflexivity).
  injection Hinfo as Hinfo.
  apply (C input "Stable" Sample.Stable
           (PropertyDecl.mk "resident" None (Sample.ref "Zebra") Sample.required)).
  - rewrite Hinfo. simpl. auto.
  - simpl. auto.
  - reflexivity.
  - reflexivity.
Defined.

(** X9. The closure grows with the methods and does not depend on their
    order: when every method of one interface is a method of another, each
    name that the instance of the first holds, in a direction and under a
    kind, is held so by the instance of the second. *)
Theorem X9_closure_monotone_in_methods
        (sameName : string -> string -> bool)
        (service : Service.t) (int int' : Interface.t) :
  incl (Interface.methods int) (Interface.methods int') ->
  exists info info',
    new sameName service int = Some info
    /\ new sameName service int' = Some info'
    /\ forall kind mode name,
        In name (Kind.names kind mode info) ->
        In name (Kind.names kind mode info').
Proof.
  intros Hincl.
  destruct (InitSpec.new_returns sameName service int) as (info & E & _ & Hres & Hroots).
  destruct (InitSpec.new_returns sameName service int')
    as (info' & E' & _ & Hres' & Hroots').
  exists info, info'. split; [assumption|]. split; [assumption|].
  intros kind mode name Hin.
  apply (ClosureSpec.names_iff sameName service int info Hres Hroots) in Hin.
  apply (ClosureSpec.names_iff sameName service int' info' Hres' Hroots').
  destruct Hin as [(Hr & root & Hroot & Hreach) Hk].
  split; [|assumption]. split; [assumption|].
  exists root. split; [|assumption].
  apply (ClosureMore.roots_incl mode int int' Hincl). assumption.
Qed.

Lemma X9_witness :
  exists info info',
    new Sample.sameName Sample.zooService (Interface.mk "zoo" [Sample.add; Sample.zap] None)
    = Some info
    /\ new Sample.sameName Sample.zooService Sample.zooInterface = Some info'
    /\ forall kind mode name,
        In name (Kind.names kind mode info) ->
        In name (Kind.names kind mode info').
Proof.
  apply (X9_closure_monotone_in_methods Sample.sameName Sample.zooService
           (Interface.mk "zoo" [Sample.add; Sample.zap] None)
           Sample.zooInterface).
  intros m [<-|[<-|[]]]; simpl; auto.
Defined.

(** X10. A direction of the resolved instance is empty exactly when none of
    its roots resolves: the three input maps are empty when no parameter
    names an entity of the service, the three output maps when no return
    value that is not primitive does. *)
Theorem X10_direction_empty_iff_no_root_resolves
        (sameName : string -> string -> bool)
        (service : Service.t) (int : Interface.t) :
  exists info,
    new sameName service int = Some info
    /\ forall mode,
        (forall root, In root (Graph.roots mode int) ->
                      Graph.resolves sameName service root = false)
        <-> (typesOf mode info = [] /\ unionsOf mode info = []
             /\ enumsOf mode info = []).
Proof.
  destruct (InitSpec.new_returns sameName service int) as (info & E & _ & Hres & Hroots).
  exists info. split; [assumption|].
  pose proof (ClosureSpec.visited_reachable sameName service int info Hres Hroots) as V.
  intros mode. split.
  - intros Hd.
    assert (N : forall k, visited mode info k = false).
    { intros k. destruct (visited mode info k) eqn:Vk; [|reflexivity].
      apply V in Vk. destruct Vk as (Hr & root & Hroot & Hreach).
      rewrite (ClosureMore.reach_from_dangling sameName service root k
                 (Hd root Hroot) Hreach) in Hr.
      rewrite (Hd root Hroot) in Hr. discriminate. }
    assert (Z : forall (X : Type) (m : JsMap.t X),
               (forall k, In k (JsMap.keys m) -> False) -> m = []).
    { intros X [|[k v] m] H; [reflexivity|].
      exfalso. apply (H k). simpl. auto. }
    repeat split; apply Z; intros k Hk;
      assert (Vk : visited mode info k = true)
        by (apply TraverseFacts.visited_iff; auto);
      rewrite N in Vk; discriminate.
  - intros (T & U & En) root Hroot.
    destruct (Graph.resolves sameName service root) eqn:R; [|reflexivity].
    pose proof (Hroots mode root Hroot R) as Vr.
    unfold visited in Vr. rewrite T, U, En in Vr. discriminate.
Qed.

Lemma X10_witness :
  exists info,
    new Sample.sameName Sample.stableService Sample.stableInterface = Some info
    /\ _outputTypes info = [] /\ _outputUnions info = []
    /\ _outputEnums info = [].
Proof.
  destruct (X10_direction_empty_iff_no_root_resolves Sample.sameName
              Sample.stableService Sample.stableInterface) as (info & E & H).
  exists info. split; [exact E|].
  apply (proj1 (H output)). intros root [].
Defined.

(** X11. The merged getters hold the entities of the directional getters
    and nothing else: a Type is in [types] exactly when it is in
    [inputTypes] or in [outputTypes], and a Union is in [unions] exactly
    when it is in [inputUnions] or in [outputUnions]. *)
Theorem X11_merged_getters_hold_both_directions
        (sameName : string -> string -> bool)
        (localeCompare : string -> string -> Z)
        (service : Service.t) (int : Interface.t) :
  exists info,
    new sameName service int = Some info
    /\ (forall type,
          In type (types localeCompare info) <->
          In type (inputTypes localeCompare info)
          \/ In type (outputTypes localeCompare info))
    /\ (forall union,
          In union (unions localeCompare info) <->
          In union (inputUnions localeCompare info)
          \/ In union (outputUnions localeCompare info)).
Proof.
  destruct (InitSpec.new_returns sameName service int) as (info & E & _ & Hres & _).
  exists info. split; [assumption|].
  destruct Hres as ((WTi & WUi & _ & NTi & NUi & _)
                    & (WTo & WUo & _ & NTo & NUo & _) & _).
  split.
  - intros type. unfold types, inputTypes, outputTypes.
    rewrite !SortFacts.sort_In.
    apply ClosureMore.merged_values; try assumption.
    intros k v v' H H'. apply WTi in H. apply WTo in H'. congruence.
  - intros union. unfold unions, inputUnions, outputUnions.
    rewrite !SortFacts.sort_In.
    apply ClosureMore.merged_values; try assumption.
    intros k v v' H H'. apply WUi in H. apply WUo in H'.
    destruct H as [_ H], H' as [_ H']. congruence.
Qed.

(** X12. An interface without methods gives, at every fuel, a document of
    the banner, the title and the description only: no table of contents
    and no section, whatever the service declares. *)
Theorem X12_document_of_interface_without_methods
        (host : Host.t) (service : Service.t) (int : Interface.t) (fuel : nat) :
  Interface.methods int = [] ->
  Builder.buildInterfaceDocs host service fuel int
  = Some (Builder.warning host service
            ++ [EmptyString;
                "# " ^ Host.title host (Host.buildInterfaceName host int);
                EmptyString]
            ++ Builder.buildInterfaceDescription int
            ++ [EmptyString]).
Proof.
  intros H.
  assert (N : new (Host.sameName host) service int = Some fresh)
    by (unfold new, init; rewrite H; reflexivity).
  unfold Builder.buildInterfaceDocs, Builder.buildToc, Builder.types,
    Builder.enums, Builder.methods.
  rewrite N, H. reflexivity.
Qed.

Lemma X12_witness :
  Builder.buildInterfaceDocs Sample.host Sample.jsonService 0
    Sample.idleInterface
  = Some ["<!--"; "This file was generated"; "--->"; EmptyString;
          "# Idle"; EmptyString; "Nothing to call."; EmptyString;
          EmptyString].
Proof.
  rewrite (X12_document_of_interface_without_methods Sample.host
             Sample.jsonService Sample.idleInterface 0 eq_refl).
  reflexivity.
Defined.

(** X13. [build] returns one file per interface of the service, in the
    order of the interfaces.  The contents of a file are the lines of
    [buildInterfaceDocs] for its interface, and its path has two segments:
    ["v"] followed by the major version of the service, and a name that
    ends in [".md"]. *)
Theorem X13_one_file_per_interface
        (host : Host.t) (kebab : string -> string)
        (fromLines : list string -> string) (majorVersion : Number)
        (service : Service.t) (fuel : nat) (files : list File.t) :
  Generator.build host kebab fromLines majorVersion service fuel = Some files ->
  Forall2
    (fun int file =>
       (exists lines,
           Builder.buildInterfaceDocs host service fuel int = Some lines
           /\ File.contents file = fromLines lines)
       /\ exists name,
           File.path file = ["v" ^ numberToString majorVersion; name]
           /\ endsWith name ".md" = true)
    (Service.interfaces service) files.
Proof.
  unfold Generator.build. rewrite BuilderFacts.mapM_Forall2.
  intros F. eapply Forall2_impl; [|exact F].
  intros int file. unfold Generator.buildInterfaceDocsFile.
  destruct (Builder.buildInterfaceDocs host service fuel int) as [lines|];
    simpl; [|discriminate].
  intros H. injection H as <-. simpl. split; [eauto|].
  eexists. split; [reflexivity|].
  apply StringFacts.endsWith_iff. eauto.
Qed.

Lemma X13_witness :
  exists files,
    Generator.build Sample.host (fun s => s) (join " ") (num "1")
      Sample.petService 2 = Some files
    /\ map File.path files = [["v1"; "pets.md"]].
Proof.
  eexists. split; [reflexivity|].
  pose proof (X13_one_file_per_interface Sample.host (fun s => s) (join " ") (num "1") Sample.petService 2 _ eq_refl) as F.
  inversion F as [|? ? ? ? [_ (name & P & _)] F']; subst.
  reflexivity.
Defined.

(** X14. [buildLinkedTypeName] reads the service through its unions only:
    two services with the same unions give the same rendering of every
    reference at every fuel, whatever Types and Enums they declare, so a
    reference to a name that is not declared is linked like a reference to
    a declared Type. *)
Theorem X14_linked_name_depends_on_unions_only
        (host : Host.t) (service service' : Service.t) (fuel : nat) :
  Service.unions service = Service.unions service' ->
  forall param,
    Builder.buildLinkedTypeName host service fuel param
    = Builder.buildLinkedTypeName host service' fuel param.
Proof.
  intros H. induction fuel as [|fuel IH]; intros param; [reflexivity|].
  rewrite !BuilderFacts.buildLinkedTypeName_S.
  unfold getUnionByName. rewrite H.
  destruct (find _ (rev (Service.unions service'))) as [union|];
    [|reflexivity].
  rewrite (FileFacts.mapM_ext _ _ _ (fun x _ => IH x)). reflexivity.
Qed.

Lemma X14_witness :
  Builder.buildLinkedTypeName Sample.host Sample.petService 2 (Sample.ref "Pet")
  = Builder.buildLinkedTypeName Sample.host
      (Service.mk [] [] [] [Sample.Pet]) 2 (Sample.ref "Pet").
Proof.
  apply (X14_linked_name_depends_on_unions_only Sample.host Sample.petService
           (Service.mk [] [] [] [Sample.Pet]) 2 eq_refl).
Defined.

(** X15. The renderer documents exactly the reachable Types and Enums.  A
    Type is in the list of [Builder.types] exactly when the look-up answers
    with it a name that is reachable from a parameter or from a return
    value; an Enum is in the list of [Builder.enums] exactly when such a
    name resolves to it as an Enum. *)
Theorem X15_renderer_lists_the_reachable_entities
        (host : Host.t) (service : Service.t) (int : Interface.t) :
  exists ts es,
    Builder.types host service int = Some ts
    /\ Builder.enums host service int = Some es
    /\ (forall type,
          In type ts <->
          exists name,
            getTypeByName (Host.sameName host) service name = Some type
            /\ (Graph.reachable (Host.sameName host) service input int name
                \/ Graph.reachable (Host.sameName host) service output int name))
    /\ (forall e,
          In e es <->
          exists name,
            Kind.resolve (Host.sameName host) service name = Some Kind.enum
            /\ getEnumByName (Host.sameName host) service name = Some e
            /\ (Graph.reachable (Host.sameName host) service input int name
                \/ Graph.reachable (Host.sameName host) service output int name)).
Proof.
  destruct (InitSpec.new_returns (Host.sameName host) service int)
    as (info & E & _ & Hres & Hroots).
  unfold Builder.types, Builder.enums. rewrite E. simpl.
  eexists _, _. split; [reflexivity|]. split; [reflexivity|].
  pose proof (ClosureMore.types_entry_iff _ service int info Hres Hroots) as TI.
  pose proof (ClosureMore.enums_entry_iff _ service int info Hres Hroots) as EI.
  destruct Hres as ((WTi & _ & WEi & NTi & _ & NEi)
                    & (WTo & _ & WEo & NTo & _ & NEo) & _).
  assert (VT : forall mode v,
             In v (JsMap.values (typesOf mode info)) <->
             exists k, In (k, v) (typesOf mode info)).
  { intros mode v. unfold JsMap.values. rewrite in_map_iff. split.
    - intros ([k v'] & Hv & Hin). simpl in Hv. subst v'. eauto.
    - intros (k & Hin). exists (k, v). auto. }
  assert (VE : forall mode v,
             In v (JsMap.values (enumsOf mode info)) <->
             exists k, In (k, v) (enumsOf mode info)).
  { intros mode v. unfold JsMap.values. rewrite in_map_iff. split.
    - intros ([k v'] & Hv & Hin). simpl in Hv. subst v'. eauto.
    - intros (k & Hin). exists (k, v). auto. }
  split.
  - intros type. rewrite SortFacts.sort_In. unfold types.
    rewrite ClosureMore.merged_values; try assumption.
    + change (_inputTypes info) with (typesOf input info).
      change (_outputTypes info) with (typesOf output info).
      rewrite !VT. split.
      * intros [(k & H)|(k & H)]; apply TI in H; exists k; tauto.
      * intros (k & Hk & [H|H]); [left|right]; exists k; apply TI; auto.
    + intros k v v' H H'. apply WTi in H. apply WTo in H'. congruence.
  - intros e. rewrite SortFacts.sort_In. unfold enums.
    rewrite ClosureMore.merged_values; try assumption.
    + change (_inputEnums info) with (enumsOf input info).
      change (_outputEnums info) with (enumsOf output info).
      rewrite !VE. split.
      * intros [(k & H)|(k & H)]; apply EI in H; exists k; tauto.
      * intros (k & Hk & He & [H|H]); [left|right]; exists k; apply EI; auto.
    + intros k v v' H H'. apply WEi in H. apply WEo in H'.
      destruct H as (_ & _ & H), H' as (_ & _ & H'). congruence.
Qed.


End Extra.
